(** * Synthetic word generator: a shallow embedding of [word_generator.py]

    The development follows the source file top to bottom:
    [parse_words], [build_model], [length_distribution], [generate_word]
    and [generate_words].  Python values are modelled as follows.

    - a character is a Unicode code point ([N]); a [str] is a list of them;
    - a [dict] keeps its insertion order, which the sampler observes through
      [list(weights.keys())]: it is an association list without repeated keys;
    - [list(set(xs))] enumerates the distinct elements of [xs] in an order
      that the language leaves open and that CPython derives from the
      per-process hash seed: the order is a parameter ([HashSeed]);
    - the tables of [unicodedata] are a parameter ([UnicodeData]);
    - Python numbers are [Int] or [Float] with the usual promotion, the
      float operations being a parameter ([FloatOps]);
    - [random.choices] is a parameter ([Random]);
    - an exception is a [Raise] result; a loop that has no bound in the
      source takes fuel and answers [OutOfFuel] when it is exhausted;
    - what the program prints or logs is left out, and so is the progress
      bar of [tqdm], which hands on the elements of its argument; the file
      [data/model.json] is taken to be writable. *)

From Stdlib Require Import String Ascii.
From Stdlib Require Import List ZArith NArith Lia Bool Permutation.
From Stdlib Require Import Floats Uint63.
From Stdlib Require Import Reals Lra.
Import ListNotations.

Set Implicit Arguments.

(** ** Characters and strings *)

Definition char := N.
Definition str := list char.

Definition ord (a : ascii) : char := N_of_ascii a.

(** [py "abc"] is the Python string whose characters are the bytes of the
    literal (Basic Latin only). *)
Fixpoint py (s : string) : str :=
  match s with
  | EmptyString => []
  | String a s' => ord a :: py s'
  end.

Definition char_eqb : char -> char -> bool := N.eqb.

Fixpoint str_eqb (a b : str) : bool :=
  match a, b with
  | [], [] => true
  | x :: a', y :: b' => char_eqb x y && str_eqb a' b'
  | _, _ => false
  end.

Definition str_eq_dec : forall a b : str, {a = b} + {a <> b} :=
  list_eq_dec N.eq_dec.

(** [x in xs] on a Python list or string. *)
Definition char_in (c : char) (s : str) : bool := existsb (char_eqb c) s.
Definition str_in (w : str) (l : list str) : bool := existsb (str_eqb w) l.

Definition INITIATOR : char := ord "#".
Definition TERMINATOR : char := ord "$".
Definition SPACE : char := ord " ".
Definition HYPHEN : char := ord "-".
Definition APOSTROPHE : char := ord "'".

(** ** Results of a call *)

Inductive exn :=
| KeyError | ValueError | IndexError | ZeroDivisionError | TypeError.

Inductive result (A : Type) :=
| Return (a : A)
| Raise (e : exn)
| OutOfFuel.

Arguments Raise {A} e.
Arguments OutOfFuel {A}.

Definition bind {A B} (m : result A) (k : A -> result B) : result B :=
  match m with
  | Return a => k a
  | Raise e => Raise e
  | OutOfFuel => OutOfFuel
  end.

Notation "x <- m ;; k" := (bind m (fun x => k))
  (at level 61, m at next level, right associativity).

(** ** Slices and strips *)

(** [s[a:]] *)
Definition slice_from {A} (a : Z) (s : list A) : list A :=
  let len := Z.of_nat (length s) in
  skipn (Z.to_nat (if (a <? 0)%Z then Z.max (len + a) 0 else a)) s.

(** [s[:i]] for an index [i >= 0] *)
Definition slice_to {A} (i : nat) (s : list A) : list A := firstn i s.

Fixpoint lstrip (chars s : str) : str :=
  match s with
  | [] => []
  | c :: s' => if char_in c chars then lstrip chars s' else s
  end.

Definition rstrip (chars s : str) : str := rev (lstrip chars (rev s)).

(** [s.strip(chars)] *)
Definition strip (chars s : str) : str := rstrip chars (lstrip chars s).

(** The characters on which [str.split()] cuts ([str.isspace]). *)
Definition isspace (c : char) : bool :=
  ((9 <=? c) && (c <=? 13) || (28 <=? c) && (c <=? 32) || (c =? 133)
   || (c =? 160) || (c =? 5760) || (8192 <=? c) && (c <=? 8202)
   || (c =? 8232) || (c =? 8233) || (c =? 8239) || (c =? 8287)
   || (c =? 12288))%N.

(** [s.split()]: the maximal runs of characters that are not white space.
    [cur] is the run being read, last character first. *)
Fixpoint split_from (cur : str) (s : str) : list str :=
  match s with
  | [] => match cur with [] => [] | _ => [rev cur] end
  | c :: s' =>
      if isspace c
      then match cur with
           | [] => split_from [] s'
           | _ => rev cur :: split_from [] s'
           end
      else split_from (c :: cur) s'
  end.

Definition split (s : str) : list str := split_from [] s.

(** ** Dictionaries in insertion order *)

Section Dict.
Variables K V : Type.
Variable eqb : K -> K -> bool.

Definition dict := list (K * V).

Fixpoint dict_get (k : K) (d : dict) : option V :=
  match d with
  | [] => None
  | (k', v) :: d' => if eqb k k' then Some v else dict_get k d'
  end.

(** [k in d.keys()] *)
Definition dict_mem (k : K) (d : dict) : bool :=
  match dict_get k d with Some _ => true | None => false end.

(** [d[k] = v]: an existing key keeps its place, a new one goes last. *)
Fixpoint dict_set (k : K) (v : V) (d : dict) : dict :=
  match d with
  | [] => [(k, v)]
  | (k', v') :: d' =>
      if eqb k k' then (k', v) :: d' else (k', v') :: dict_set k v d'
  end.

Definition keys (d : dict) : list K := map fst d.
Definition values (d : dict) : list V := map snd d.
End Dict.

(** ** Parameters of the run *)

(** The general categories of [unicodedata.category]. *)
Inductive general_category :=
| Lu | Ll | Lt | Lm | Lo | Mn | Mc | Me | Nd | Nl | No
| Pc | Pd | Ps | Pe | Pi | Pf | Po | Sm | Sc | Sk | So
| Zs | Zl | Zp | Cc | Cf | Cs | Co | Cn.

(** [category.startswith('L')] *)
Definition startswith_L (g : general_category) : bool :=
  match g with Lu | Ll | Lt | Lm | Lo => true | _ => false end.

(** [category == 'Mn'] *)
Definition is_Mn (g : general_category) : bool :=
  match g with Mn => true | _ => false end.

(** What the program uses of Python's Unicode tables, with the two facts of
    the Basic Latin block that its correctness rests on: the sentinels are
    punctuation and a currency symbol, not letters or marks. *)
Class UnicodeData := {
  normalize_NFKD : str -> str;
  lower : str -> str;
  category : char -> general_category;
  category_INITIATOR : category INITIATOR = Po;
  category_TERMINATOR : category TERMINATOR = Sc
}.

(** [list(set(xs))]: the distinct elements of [xs], in the order in which the
    hash table of this process enumerates them. *)
Class HashSeed := {
  list_set : list str -> list str;
  list_set_NoDup : forall xs, NoDup (list_set xs);
  list_set_In : forall xs x, In x (list_set xs) <-> In x xs
}.

(** ** parse_words *)

(** [UNICODE_FIXES] *)
Definition UNICODE_FIXES (c : char) : char :=
  if (c =? 8216)%N then APOSTROPHE
  else if (c =? 8217)%N then APOSTROPHE
  else c.

(** [text.translate(table)] *)
Definition translate (table : char -> char) (s : str) : str := map table s.

(** What a run of [n] hyphens becomes under [re.sub(r'-{2,}', ' ', text)]. *)
Definition hyphen_run (n : nat) : str :=
  match n with
  | 0 => []
  | 1 => [HYPHEN]
  | _ => [SPACE]
  end.

(** [re.sub(r'-{2,}', ' ', text)]; [run] hyphens were read and not yet
    written. *)
Fixpoint sub_hyphens (run : nat) (s : str) : str :=
  match s with
  | [] => hyphen_run run
  | c :: s' =>
      if char_eqb c HYPHEN then sub_hyphens (S run) s'
      else hyphen_run run ++ c :: sub_hyphens 0 s'
  end.

Section Parse.
Context {U : UnicodeData} {H : HashSeed}.
Variable CONTEXT_LENGTH : Z.

(** The test of the character loop of step 2. *)
Definition desired (c : char) : bool :=
  startswith_L (category c) || is_Mn (category c)
  || char_in c [APOSTROPHE; HYPHEN].

Definition strip_special (s : str) : str :=
  map (fun c => if desired c then c else SPACE) s.

(** The loop of step 3 over [rawlist]. *)
Fixpoint keep_long (rawlist : list str) : list str :=
  match rawlist with
  | [] => []
  | word :: rest =>
      let word := strip [HYPHEN] word in
      if (Z.of_nat (length word) >? CONTEXT_LENGTH)%Z
      then word :: keep_long rest
      else keep_long rest
  end.

(** [parse_words(text)]; [None] is Python's [None] on both sides.  No
    operation of the body raises on a [str], so the [except] branch is
    not taken. *)
Definition parse_words (text : option str) : option (list str) :=
  match text with
  | None => None
  | Some text =>
      let text := normalize_NFKD text in
      let text := lower text in
      let text := translate UNICODE_FIXES text in
      let text := sub_hyphens 0 text in
      let text := strip_special text in
      let rawlist := list_set (split text) in
      let wordlist := keep_long rawlist in
      Some (list_set wordlist)
  end.
End Parse.

(** ** Numbers *)

(** Python's [float] and the operations the program applies to it. *)
Class FloatOps := {
  float : Type;
  float_of_int : Z -> float;
  fadd : float -> float -> float;
  fmul : float -> float -> float;
  fdiv : float -> float -> float;
  fpow_half : float -> float
}.

Section Numbers.
Context {F : FloatOps}.

(** A Python number: an [int] of any size or a [float]. *)
Inductive number :=
| Int (n : Z)
| Float (x : float).

Definition to_float (a : number) : float :=
  match a with
  | Int n => float_of_int n
  | Float x => x
  end.

(** [a + b] *)
Definition num_add (a b : number) : number :=
  match a, b with
  | Int m, Int n => Int (m + n)
  | _, _ => Float (fadd (to_float a) (to_float b))
  end.

(** [a * b] *)
Definition num_mul (a b : number) : number :=
  match a, b with
  | Int m, Int n => Int (m * n)
  | _, _ => Float (fmul (to_float a) (to_float b))
  end.

(** [m / n] on two [int]s: always a [float]. *)
Definition int_true_div (m n : Z) : result number :=
  if (n =? 0)%Z then Raise ZeroDivisionError
  else Return (Float (fdiv (float_of_int m) (float_of_int n))).

(** [a ** 0.5] *)
Definition pow_half (a : number) : number := Float (fpow_half (to_float a)).
End Numbers.

(** ** Sequences *)

(** [l[-1]] *)
Definition last_item {A} (l : list A) : result A :=
  match rev l with
  | [] => Raise IndexError
  | x :: _ => Return x
  end.

(** [l[i]] for an index [i >= 0] *)
Definition item {A} (i : nat) (l : list A) : result A :=
  match nth_error l i with
  | Some x => Return x
  | None => Raise IndexError
  end.

(** [max(l)] *)
Definition py_max (l : list nat) : result nat :=
  match l with
  | [] => Raise ValueError
  | x :: l' => Return (fold_left Nat.max l' x)
  end.

(** [sum(l)] *)
Definition py_sum (l : list Z) : Z := fold_left Z.add l 0%Z.

(** A [for] loop whose body may raise. *)
Fixpoint for_each {A S} (body : S -> A -> result S) (l : list A) (s : S)
  : result S :=
  match l with
  | [] => Return s
  | x :: l' => s' <- body s x ;; for_each body l' s'
  end.

(** [range(a, b)] *)
Definition range (a b : nat) : list nat := seq a (b - a).

(** ** build_model *)

Definition row := dict char Z.
Definition model_t := dict str row.

Definition get_row (context : str) (model : model_t) : row :=
  match dict_get str_eqb context model with
  | Some r => r
  | None => []
  end.

Definition get_count (letter : char) (r : row) : Z :=
  match dict_get char_eqb letter r with
  | Some n => n
  | None => 0%Z
  end.

(** The three statements that end the inner loop of [build_model]. *)
Definition count_letter (context : str) (letter : char) (model : model_t)
  : model_t :=
  let model :=
    if dict_mem str_eqb context model then model
    else dict_set str_eqb context [] model in
  let r := get_row context model in
  let r :=
    if dict_mem char_eqb letter r then r
    else dict_set char_eqb letter 0%Z r in
  let r := dict_set char_eqb letter (get_count letter r + 1)%Z r in
  dict_set str_eqb context r model.

Section Model.
Variable CONTEXT_LENGTH : Z.

(** [word[-CONTEXT_LENGTH:]] *)
Definition context_of (word : str) : str :=
  slice_from (- CONTEXT_LENGTH) word.

(** The body of the outer loop: one word of the list. *)
Definition count_word (model : model_t) (word : str) : model_t :=
  let word := INITIATOR :: word ++ [TERMINATOR] in
  fold_left
    (fun model i =>
       let context := context_of (slice_to i word) in
       let letter := nth i word 0%N in
       count_letter context letter model)
    (range 1 (length word)) model.

Definition build_model (wordlist : list str) : model_t :=
  fold_left count_word wordlist [].
End Model.

(** ** length_distribution *)

Definition histogram := dict nat Z.

Definition get_length (n : nat) (d : histogram) : Z :=
  match dict_get Nat.eqb n d with
  | Some c => c
  | None => 0%Z
  end.

(** The body of the counting loop. *)
Definition count_length (distribution : histogram) (word : str) : histogram :=
  let length := length word in
  let distribution :=
    if dict_mem Nat.eqb length distribution then distribution
    else dict_set Nat.eqb length 0%Z distribution in
  dict_set Nat.eqb length (get_length length distribution + 1)%Z distribution.

(** [dict(sorted(d.items(), key=lambda item: item[0]))] *)
Fixpoint insert_sorted (kv : nat * Z) (d : histogram) : histogram :=
  match d with
  | [] => [kv]
  | kv' :: d' =>
      if fst kv <? fst kv' then kv :: d
      else kv' :: insert_sorted kv d'
  end.

Definition sorted_items (d : histogram) : histogram :=
  fold_right insert_sorted [] d.

Section Distribution.
Context {F : FloatOps}.

(** The body of the loop that accumulates the distribution. *)
Definition accumulate (distribution : histogram) (cumulative : list number)
  (i : nat) : result (list number) :=
  value <- last_item cumulative ;;
  value <- (if dict_mem Nat.eqb i distribution
            then q <- int_true_div (get_length i distribution)
                        (py_sum (values distribution)) ;;
                 Return (num_add value (pow_half q))
            else Return value) ;;
  Return (cumulative ++ [value]).

Definition length_distribution (wordlist : list str)
  : result (list number) :=
  let distribution := fold_left count_length wordlist [] in
  let distribution := sorted_items distribution in
  m <- py_max (keys distribution) ;;
  for_each (accumulate distribution) (range 1 (m + 1)) [Int 0].
End Distribution.

(** ** Random source *)

(** [random.choices(population, weights)[0]] on the state [g] of the random
    source.  The library answers with an element of the population, or
    raises an error that is not a [KeyError] (a [ValueError] on weights
    without a positive finite total, an [IndexError] on an empty
    population); nothing else is assumed about how it draws. *)
Class Random {F : FloatOps} := {
  rng : Type;
  choices : rng -> list char -> list number -> result (char * rng);
  choices_In : forall g population weights c g',
      choices g population weights = Return (c, g') -> In c population;
  choices_Raise : forall g population weights,
      choices g population weights <> Raise KeyError
}.

(** ** generate_word *)

Section Sampler.
Context {F : FloatOps} {R : Random}.
Variable CONTEXT_LENGTH : Z.

Definition weights_t := dict char number.

(** A row of the model read as a dictionary of numbers: what
    [weights = model[context]] and [weights.copy()] hold. *)
Definition as_weights (r : row) : weights_t :=
  map (fun kv => (fst kv, Int (snd kv))) r.

Definition get_weight (c : char) (weights : weights_t) : number :=
  match dict_get char_eqb c weights with
  | Some x => x
  | None => Int 0
  end.

(** The factor applied to the terminator for the in-progress [word]. *)
Definition terminator_factor (distribution : list number) (word : str)
  : result number :=
  if length word <? length distribution
  then item (length word) distribution
  else last_item distribution.

(** The weights handed to [random.choices] for the in-progress [word]:
    lines 167 to 174 of the source. *)
Definition next_weights (model : model_t) (distribution : list number)
  (word : str) : result weights_t :=
  let context := context_of CONTEXT_LENGTH word in
  match dict_get str_eqb context model with
  | None => Raise KeyError
  | Some r =>
      let weights := as_weights r in
      if dict_mem char_eqb TERMINATOR weights
      then factor <- terminator_factor distribution word ;;
           Return (dict_set char_eqb TERMINATOR
                     (num_mul (get_weight TERMINATOR weights) factor)
                     weights)
      else Return weights
  end.

(** The [while] loop of [generate_word], from the in-progress [word]. *)
Fixpoint generate_loop (fuel : nat) (model : model_t)
  (distribution : list number) (word : str) (g : rng)
  : result (str * rng) :=
  match fuel with
  | 0 => OutOfFuel
  | S fuel' =>
      final <- last_item word ;;
      if negb (char_eqb final TERMINATOR)
      then weights <- next_weights model distribution word ;;
           drawn <- choices g (keys weights) (values weights) ;;
           generate_loop fuel' model distribution
             (word ++ [fst drawn]) (snd drawn)
      else Return (word, g)
  end.

Definition generate_word (fuel : nat) (model : model_t)
  (distribution : list number) (g : rng) : result (str * rng) :=
  out <- generate_loop fuel model distribution [INITIATOR] g ;;
  Return (strip [INITIATOR; TERMINATOR] (fst out), snd out).

(** ** generate_words *)

(** The [while] loop of [generate_words]; the test of the loop is made
    before fuel is looked at, so a loop that has nothing to do returns
    whatever the fuel. *)
Fixpoint sample_loop (fuel : nat) (model : model_t)
  (distribution : list number) (wordlist : list str) (count : Z)
  (generated : list str) (g : rng) : result (list str * rng) :=
  if (Z.of_nat (length generated) <? count)%Z
  then match fuel with
       | 0 => OutOfFuel
       | S fuel' =>
           out <- generate_word fuel model distribution g ;;
           let word := fst out in
           if str_in word wordlist || str_in word generated
           then sample_loop fuel' model distribution wordlist count
                  generated (snd out)
           else sample_loop fuel' model distribution wordlist count
                  (generated ++ [word]) (snd out)
       end
  else Return (generated, g).

Context {U : UnicodeData} {H : HashSeed}.

(** What a call of [generate_words] leaves behind: the table written to
    [data/model.json], when the call got that far, and what it returned. *)
Record run := {
  model_json : option model_t;
  returned : result (option (list str) * rng)
}.

Definition generate_words (fuel : nat) (text : option str) (count : Z)
  (g : rng) : run :=
  match parse_words CONTEXT_LENGTH text with
  | None => {| model_json := None; returned := Return (None, g) |}
  | Some wordlist =>
      let model := build_model CONTEXT_LENGTH wordlist in
      {| model_json := Some model;
         returned :=
           distribution <- length_distribution wordlist ;;
           out <- sample_loop fuel model distribution wordlist count [] g ;;
           Return (Some (fst out), snd out) |}
  end.
End Sampler.

(** ** The in-progress words of generate_word

    The words on which the loop of [generate_word] looks a context up: the
    lone initiator, and every word extended by a drawn character that is
    not the terminator. *)

Inductive in_progress {F : FloatOps} (CONTEXT_LENGTH : Z) (model : model_t)
  (distribution : list number) : str -> Prop :=
| in_progress_start :
    in_progress CONTEXT_LENGTH model distribution [INITIATOR]
| in_progress_step word weights c :
    in_progress CONTEXT_LENGTH model distribution word ->
    next_weights CONTEXT_LENGTH model distribution word = Return weights ->
    In c (keys weights) ->
    c <> TERMINATOR ->
    in_progress CONTEXT_LENGTH model distribution (word ++ [c]).

(** ** generate_word on objects

    Python dictionaries are objects: [weights = model[context]] makes
    [weights] a second name of a row of the model, [weights.copy()] makes a
    new object, and [weights[TERMINATOR] *= x] writes into the object that
    [weights] names at that moment.  Here the objects live in a heap and
    names hold addresses. *)

Section Objects.
Context {F : FloatOps} {R : Random}.
Variable CONTEXT_LENGTH : Z.

Inductive object :=
| Table (d : dict str nat)
| Weights (d : weights_t).

(** The object at address [a] is the [a]-th of the heap. *)
Definition heap := list object.

(** How a call ends, and the heap it leaves. *)
Inductive outcome (A : Type) :=
| Returned (a : A) (h : heap)
| Raised (e : exn) (h : heap)
| Exhausted (h : heap).

Arguments Raised {A} e h.
Arguments Exhausted {A} h.

Definition final_heap {A} (o : outcome A) : heap :=
  match o with
  | Returned _ h => h
  | Raised _ h => h
  | Exhausted h => h
  end.

Definition and_then {A B} (m : heap -> outcome A)
  (k : A -> heap -> outcome B) : heap -> outcome B :=
  fun h =>
    match m h with
    | Returned a h' => k a h'
    | Raised e h' => Raised e h'
    | Exhausted h' => Exhausted h'
    end.

(** A pure step that may raise. *)
Definition lift {A} (r : result A) : heap -> outcome A :=
  fun h =>
    match r with
    | Return a => Returned a h
    | Raise e => Raised e h
    | OutOfFuel => Exhausted h
    end.

(** Reading the dictionary of weights at an address; a name never holds
    the address of an object of another kind, which would be a
    [TypeError]. *)
Definition read_weights (a : nat) : heap -> outcome weights_t :=
  fun h =>
    match nth_error h a with
    | Some (Weights d) => Returned d h
    | _ => Raised TypeError h
    end.

Definition read_table (a : nat) : heap -> outcome (dict str nat) :=
  fun h =>
    match nth_error h a with
    | Some (Table d) => Returned d h
    | _ => Raised TypeError h
    end.

(** A new object. *)
Definition allocate (o : object) : heap -> outcome nat :=
  fun h => Returned (length h) (h ++ [o]).

Fixpoint replace_nth (a : nat) (o : object) (h : heap) : heap :=
  match h, a with
  | [], _ => []
  | _ :: h', 0 => o :: h'
  | x :: h', S a' => x :: replace_nth a' o h'
  end.

(** Writing into the object at an address. *)
Definition write (a : nat) (o : object) : heap -> outcome unit :=
  fun h => Returned tt (replace_nth a o h).

(** Lines 167 to 174: the address that [weights] names when
    [random.choices] is called. *)
Definition next_weights_at (model : nat) (distribution : list number)
  (word : str) : heap -> outcome nat :=
  let context := context_of CONTEXT_LENGTH word in
  and_then (read_table model) (fun table =>
  match dict_get str_eqb context table with
  | None => lift (Raise KeyError)
  | Some weights =>
      and_then (read_weights weights) (fun d =>
      if dict_mem char_eqb TERMINATOR d
      then
        and_then (allocate (Weights d)) (fun weights =>
        and_then (lift (terminator_factor distribution word)) (fun factor =>
        and_then (read_weights weights) (fun d =>
        and_then
          (write weights
             (Weights (dict_set char_eqb TERMINATOR
                         (num_mul (get_weight TERMINATOR d) factor) d)))
          (fun _ => lift (Return weights)))))
      else lift (Return weights))
  end).

Fixpoint generate_loop_at (fuel : nat) (model : nat)
  (distribution : list number) (word : str) (g : rng)
  : heap -> outcome (str * rng) :=
  match fuel with
  | 0 => lift OutOfFuel
  | S fuel' =>
      and_then (lift (last_item word)) (fun final =>
      if negb (char_eqb final TERMINATOR)
      then
        and_then (next_weights_at model distribution word) (fun weights =>
        and_then (read_weights weights) (fun d =>
        and_then (lift (choices g (keys d) (values d))) (fun drawn =>
        generate_loop_at fuel' model distribution
          (word ++ [fst drawn]) (snd drawn))))
      else lift (Return (word, g)))
  end.

Definition generate_word_at (fuel : nat) (model : nat)
  (distribution : list number) (g : rng) : heap -> outcome (str * rng) :=
  and_then (generate_loop_at fuel model distribution [INITIATOR] g)
    (fun out =>
       lift (Return (strip [INITIATOR; TERMINATOR] (fst out), snd out))).

(** The heap agrees with [h] on every object of [h]. *)
Definition extends (h h' : heap) : Prop :=
  forall a, a < length h -> nth_error h' a = nth_error h a.

(** The rows of a model as objects, in the order of the model, and the
    table of their addresses when the first row is at [base]. *)
Fixpoint row_objects (m : model_t) : list object :=
  match m with
  | [] => []
  | (_, r) :: m' => Weights (as_weights r) :: row_objects m'
  end.

Fixpoint row_addresses (base : nat) (m : model_t) : dict str nat :=
  match m with
  | [] => []
  | (context, _) :: m' => (context, base) :: row_addresses (S base) m'
  end.

(** The heap that holds [m] and nothing else; the table is its last
    object, at address [length m]. *)
Definition heap_of (m : model_t) : heap :=
  row_objects m ++ [Table (row_addresses 0 m)].

(** The heap [h] holds the model [m] under the table at address [a]. *)
Definition holds (h : heap) (a : nat) (m : model_t) : Prop :=
  exists table,
    nth_error h a = Some (Table table)
    /\ forall context,
         match dict_get str_eqb context table with
         | Some ra =>
             exists r, dict_get str_eqb context m = Some r
                       /\ nth_error h ra = Some (Weights (as_weights r))
         | None => dict_get str_eqb context m = None
         end.
End Objects.

Arguments Raised {F A} e h.
Arguments Exhausted {F A} h.

(** ** Order on numbers *)

Section Order.
Context {F : FloatOps}.
Variable fle : float -> float -> Prop.

End Order.

(** * Basic facts *)

Lemma char_eqb_eq (a b : char) : char_eqb a b = true <-> a = b.
Proof. apply N.eqb_eq. Qed.

Lemma char_eqb_refl (a : char) : char_eqb a a = true.
Proof. apply N.eqb_refl. Qed.

Lemma str_eqb_eq (a b : str) : str_eqb a b = true <-> a = b.
Proof.
  revert b; induction a as [|x a IH]; intros [|y b]; simpl;
    try (split; [discriminate | congruence]); try tauto.
  rewrite andb_true_iff, char_eqb_eq, IH.
  split; [intros [-> ->]; reflexivity | intros E; inversion E; auto].
Qed.

Lemma str_eqb_refl (a : str) : str_eqb a a = true.
Proof. apply str_eqb_eq; reflexivity. Qed.

Lemma str_eqb_neq (a b : str) : str_eqb a b = false <-> a <> b.
Proof.
  rewrite <- str_eqb_eq. destruct (str_eqb a b); split; congruence.
Qed.

Lemma char_in_In (c : char) (s : str) : char_in c s = true <-> In c s.
Proof.
  unfold char_in. rewrite existsb_exists. split.
  - intros [x [Hx E]]. apply char_eqb_eq in E. subst; assumption.
  - intros Hc. exists c. split; [assumption | apply char_eqb_refl].
Qed.

Lemma str_in_In (w : str) (l : list str) : str_in w l = true <-> In w l.
Proof.
  unfold str_in. rewrite existsb_exists. split.
  - intros [x [Hx E]]. apply str_eqb_eq in E. subst; assumption.
  - intros Hw. exists w. split; [assumption | apply str_eqb_refl].
Qed.

Lemma str_in_not_In (w : str) (l : list str) :
  str_in w l = false <-> ~ In w l.
Proof.
  rewrite <- str_in_In. destruct (str_in w l); split; congruence.
Qed.

(** * Instances of the parameters *)

(** ** The Basic Latin block of the Unicode tables

    Exact on code points below 128; the rest of the tables is not
    transcribed, and the examples below stay within the block. *)

Definition basic_latin_category (c : char) : general_category :=
  (if c <? 32 then Cc
   else if c =? 32 then Zs
   else if c =? 36 then Sc
   else if (c =? 40) || (c =? 91) || (c =? 123) then Ps
   else if (c =? 41) || (c =? 93) || (c =? 125) then Pe
   else if (c =? 43) || (c =? 124) || (c =? 126)
           || (60 <=? c) && (c <=? 62) then Sm
   else if c =? 45 then Pd
   else if (48 <=? c) && (c <=? 57) then Nd
   else if (65 <=? c) && (c <=? 90) then Lu
   else if (c =? 94) || (c =? 96) then Sk
   else if c =? 95 then Pc
   else if (97 <=? c) && (c <=? 122) then Ll
   else if c =? 127 then Cc
   else if c <? 128 then Po
   else Cn)%N.

Definition basic_latin_lower (s : str) : str :=
  map (fun c => if ((65 <=? c) && (c <=? 90))%N then (c + 32)%N else c) s.

#[export] Instance BasicLatin : UnicodeData := {|
  normalize_NFKD := fun s => s;
  lower := basic_latin_lower;
  category := basic_latin_category;
  category_INITIATOR := eq_refl;
  category_TERMINATOR := eq_refl
|}.

(** ** Two enumeration orders of a set *)

(** The distinct elements of [xs] in the order of their first occurrence;
    [seen] holds the elements already met. *)
Fixpoint distinct (seen xs : list str) : list str :=
  match xs with
  | [] => []
  | x :: xs' =>
      if str_in x seen then distinct seen xs'
      else x :: distinct (x :: seen) xs'
  end.

Lemma distinct_In (xs seen : list str) (x : str) :
  In x (distinct seen xs) <-> In x xs /\ ~ In x seen.
Proof.
  revert seen; induction xs as [|y xs IH]; intros seen; simpl.
  - tauto.
  - destruct (str_in y seen) eqn:E.
    + apply str_in_In in E. rewrite IH. intuition (subst; tauto).
    + apply str_in_not_In in E. simpl. rewrite IH. simpl.
      destruct (str_eq_dec y x) as [->|N]; intuition congruence.
Qed.

Lemma distinct_NoDup (xs seen : list str) : NoDup (distinct seen xs).
Proof.
  revert seen; induction xs as [|y xs IH]; intros seen; simpl.
  - constructor.
  - destruct (str_in y seen) eqn:E; [apply IH|].
    constructor; [|apply IH].
    rewrite distinct_In. simpl. tauto.
Qed.

#[export] Instance FirstSeen : HashSeed := {|
  list_set := distinct [];
  list_set_NoDup := fun xs => distinct_NoDup xs [];
  list_set_In := fun xs x =>
    conj (fun I => proj1 (proj1 (distinct_In xs [] x) I))
         (fun I => proj2 (distinct_In xs [] x) (conj I (fun F => F)))
|}.

(** The distinct elements of [xs] by increasing [rank], as a hash table
    without collisions enumerates them when [rank] is the slot of a key. *)
Fixpoint insert_by (rank : str -> N) (x : str) (l : list str) : list str :=
  match l with
  | [] => [x]
  | y :: l' =>
      if (rank x <=? rank y)%N then x :: l else y :: insert_by rank x l'
  end.

Definition sort_by (rank : str -> N) (l : list str) : list str :=
  fold_right (insert_by rank) [] l.

Lemma insert_by_Permutation rank x l :
  Permutation (insert_by rank x l) (x :: l).
Proof.
  induction l as [|y l IH]; simpl; [reflexivity|].
  destruct (_ <=? _)%N; [reflexivity|].
  rewrite IH. apply perm_swap.
Qed.

Lemma sort_by_Permutation rank l : Permutation (sort_by rank l) l.
Proof.
  induction l as [|x l IH]; simpl; [reflexivity|].
  rewrite insert_by_Permutation. constructor. exact IH.
Qed.

Lemma sort_by_distinct_NoDup rank xs : NoDup (sort_by rank (distinct [] xs)).
Proof.
  eapply Permutation_NoDup.
  - symmetry. apply sort_by_Permutation.
  - apply distinct_NoDup.
Qed.

Lemma sort_by_distinct_In rank xs x :
  In x (sort_by rank (distinct [] xs)) <-> In x xs.
Proof.
  split; intros I.
  - eapply Permutation_in in I; [|apply sort_by_Permutation].
    apply distinct_In in I. tauto.
  - eapply Permutation_in; [symmetry; apply sort_by_Permutation|].
    apply distinct_In. tauto.
Qed.

Definition ByRank (rank : str -> N) : HashSeed := {|
  list_set := fun xs => sort_by rank (distinct [] xs);
  list_set_NoDup := sort_by_distinct_NoDup rank;
  list_set_In := sort_by_distinct_In rank
|}.

(** ** IEEE binary64 floats

    CPython's [float].  [float_of_int] is exact below 2^53, which bounds
    every count of a run by far; [x ** 0.5] is rendered by the correctly
    rounded square root. *)

Definition binary64_of_int (n : Z) : PrimFloat.float :=
  if (n <? 0)%Z
  then PrimFloat.opp (PrimFloat.of_uint63 (Uint63.of_Z (- n)))
  else PrimFloat.of_uint63 (Uint63.of_Z n).

#[export] Instance Binary64 : FloatOps := {|
  float := PrimFloat.float;
  float_of_int := binary64_of_int;
  fadd := PrimFloat.add;
  fmul := PrimFloat.mul;
  fdiv := PrimFloat.div;
  fpow_half := PrimFloat.sqrt
|}.

(** ** CPython's [random.choices]

    The random source is the sequence of the results of [random.random()]
    still to come. *)

Section Choices.
Definition stream := nat -> PrimFloat.float.

Definition tail (g : stream) : stream := fun n => g (S n).

(** [itertools.accumulate(weights)] from the running total [acc]. *)
Fixpoint accumulate_from (acc : number) (weights : list number)
  : list number :=
  match weights with
  | [] => []
  | w :: ws => let acc := num_add acc w in acc :: accumulate_from acc ws
  end.

Definition cumulative_weights (weights : list number) : list number :=
  match weights with
  | [] => []
  | w :: ws => w :: accumulate_from w ws
  end.

(** [bisect.bisect_right(a, x, lo, hi)]; the loop runs at most
    [hi - lo] times. *)
Fixpoint bisect (fuel : nat) (a : list number) (x : PrimFloat.float)
  (lo hi : nat) : nat :=
  match fuel with
  | 0 => lo
  | S fuel' =>
      if lo <? hi
      then let mid := (lo + hi) / 2 in
           if PrimFloat.ltb x (to_float (nth mid a (Int 0)))
           then bisect fuel' a x lo mid
           else bisect fuel' a x (mid + 1) hi
      else lo
  end.

Definition cpython_choices (g : stream) (population : list char)
  (weights : list number) : result (char * stream) :=
  let n := length population in
  let cum_weights := cumulative_weights weights in
  if negb (length cum_weights =? n) then Raise ValueError
  else
    last <- last_item cum_weights ;;
    let total := PrimFloat.add (to_float last) PrimFloat.zero in
    if PrimFloat.leb total PrimFloat.zero then Raise ValueError
    else if negb (PrimFloat.is_finite total) then Raise ValueError
    else
      let hi := n - 1 in
      let i := bisect n cum_weights (PrimFloat.mul (g 0) total) 0 hi in
      c <- item i population ;;
      Return (c, tail g).
End Choices.

Lemma cpython_choices_In g population weights c g' :
  cpython_choices g population weights = Return (c, g') -> In c population.
Proof.
  unfold cpython_choices.
  destruct (negb _); [discriminate|].
  destruct (last_item _); simpl; try discriminate.
  destruct (PrimFloat.leb _ _); [discriminate|].
  destruct (negb _); [discriminate|].
  unfold item.
  destruct (nth_error population _) eqn:E; simpl; [|discriminate].
  intros Eq; inversion Eq; subst.
  eapply nth_error_In; eassumption.
Qed.

Lemma cpython_choices_Raise g population weights :
  cpython_choices g population weights <> Raise KeyError.
Proof.
  unfold cpython_choices.
  destruct (negb _); [discriminate|].
  unfold last_item. destruct (rev _); simpl; [discriminate|].
  destruct (PrimFloat.leb _ _); [discriminate|].
  destruct (negb _); [discriminate|].
  unfold item. destruct (nth_error population _); simpl; discriminate.
Qed.

#[export] Instance CPython : Random := {|
  rng := stream;
  choices := cpython_choices;
  choices_In := cpython_choices_In;
  choices_Raise := cpython_choices_Raise
|}.

(** The random source whose first results are [draws], and [0.0] after. *)
Definition stream_of (draws : list PrimFloat.float) : stream :=
  fun n => nth n draws PrimFloat.zero.

(** The random source that answers [a], [b], [a], [b], ... *)
Definition alternate (a b : PrimFloat.float) : stream :=
  fun n => if Nat.even n then a else b.

Definition constant (a : PrimFloat.float) : stream := fun _ => a.

(** * Facts about dictionaries *)

Section DictFacts.
Variables K V : Type.
Variable eqb : K -> K -> bool.
Hypothesis eqb_eq : forall a b, eqb a b = true <-> a = b.

Lemma eqb_refl_of k : eqb k k = true.
Proof. apply eqb_eq; reflexivity. Qed.

Lemma eqb_false_of a b : a <> b -> eqb a b = false.
Proof.
  intros N. destruct (eqb a b) eqn:E; [|reflexivity].
  apply eqb_eq in E. contradiction.
Qed.

Lemma dict_get_set_same k (v : V) d :
  dict_get eqb k (dict_set eqb k v d) = Some v.
Proof.
  induction d as [|[k' v'] d IH]; simpl.
  - rewrite eqb_refl_of. reflexivity.
  - destruct (eqb k k') eqn:E; simpl; rewrite E; auto.
Qed.

Lemma dict_get_set_other k k' (v : V) d :
  k' <> k -> dict_get eqb k' (dict_set eqb k v d) = dict_get eqb k' d.
Proof.
  intros N. induction d as [|[k0 v0] d IH]; simpl.
  - rewrite (eqb_false_of N). reflexivity.
  - destruct (eqb k k0) eqn:E; simpl.
    + apply eqb_eq in E. subst k0. rewrite (eqb_false_of N). reflexivity.
    + destruct (eqb k' k0); auto.
Qed.

Lemma dict_get_In_keys k (d : dict K V) :
  dict_get eqb k d <> None <-> In k (keys d).
Proof.
  induction d as [|[k0 v0] d IH]; simpl.
  - intuition congruence.
  - destruct (eqb k k0) eqn:E.
    + apply eqb_eq in E. subst. intuition congruence.
    + rewrite IH. split; [tauto|].
      intros [E'|I]; [|assumption].
      subst. rewrite eqb_refl_of in E. discriminate.
Qed.

Lemma dict_mem_In_keys k (d : dict K V) :
  dict_mem eqb k d = true <-> In k (keys d).
Proof.
  rewrite <- dict_get_In_keys. unfold dict_mem.
  destruct (dict_get eqb k d); intuition congruence.
Qed.

Lemma dict_mem_false k (d : dict K V) :
  dict_mem eqb k d = false <-> dict_get eqb k d = None.
Proof. unfold dict_mem. destruct (dict_get eqb k d); intuition congruence. Qed.

Lemma keys_dict_set_In k k' (v : V) d :
  In k' (keys (dict_set eqb k v d)) <-> k' = k \/ In k' (keys d).
Proof.
  induction d as [|[k0 v0] d IH]; simpl.
  - intuition.
  - destruct (eqb k k0) eqn:E; simpl.
    + apply eqb_eq in E. subst. intuition.
    + rewrite IH. intuition.
Qed.

(** Writing under a key that is present moves no key. *)
Lemma keys_dict_set_present k (v : V) d :
  In k (keys d) -> keys (dict_set eqb k v d) = keys d.
Proof.
  induction d as [|[k0 v0] d IH]; simpl; [tauto|].
  intros I. destruct (eqb k k0) eqn:E; simpl; [reflexivity|].
  f_equal. apply IH. destruct I as [E'|I]; [|assumption].
  subst. rewrite eqb_refl_of in E. discriminate.
Qed.

Lemma keys_dict_set_NoDup k (v : V) d :
  NoDup (keys d) -> NoDup (keys (dict_set eqb k v d)).
Proof.
  induction d as [|[k0 v0] d IH]; simpl; intros N.
  - constructor; [tauto | constructor].
  - inversion N; subst. destruct (eqb k k0) eqn:E; simpl.
    + constructor; assumption.
    + constructor; [|auto].
      rewrite keys_dict_set_In. intros [E'|I]; [|contradiction].
      subst. rewrite eqb_refl_of in E. discriminate.
Qed.

Lemma dict_get_In k (v : V) d : dict_get eqb k d = Some v -> In (k, v) d.
Proof.
  induction d as [|[k0 v0] d IH]; simpl; [discriminate|].
  destruct (eqb k k0) eqn:E.
  - apply eqb_eq in E. intros Eq; inversion Eq; subst. auto.
  - auto.
Qed.
End DictFacts.

Lemma nat_eqb_eq (a b : nat) : Nat.eqb a b = true <-> a = b.
Proof. apply Nat.eqb_eq. Qed.

(** * Facts about the model *)

(** The model counts transitions: pairs of a context and the character
    that follows it. *)
Definition transition := (str * char)%type.

Definition transition_eq_dec : forall a b : transition, {a = b} + {a <> b}.
Proof. decide equality; [apply N.eq_dec | apply str_eq_dec]. Defined.

Definition bounded (word : str) : str := INITIATOR :: word ++ [TERMINATOR].

Definition transitions (CONTEXT_LENGTH : Z) (word : str) : list transition :=
  map (fun i => (context_of CONTEXT_LENGTH (slice_to i word), nth i word 0%N))
    (range 1 (length word)).

Definition all_transitions (CONTEXT_LENGTH : Z) (wordlist : list str)
  : list transition :=
  flat_map (fun w => transitions CONTEXT_LENGTH (bounded w)) wordlist.

Definition train (model : model_t) (ts : list transition) : model_t :=
  fold_left (fun m t => count_letter (fst t) (snd t) m) ts model.

Lemma count_word_train CL model word :
  count_word CL model word = train model (transitions CL (bounded word)).
Proof.
  unfold count_word, train, transitions, bounded.
  generalize (range 1 (length (INITIATOR :: word ++ [TERMINATOR]))).
  intros l; revert model.
  induction l as [|i l IH]; intros model; simpl; [reflexivity|].
  apply IH.
Qed.

Lemma train_app model ts ts' :
  train model (ts ++ ts') = train (train model ts) ts'.
Proof. apply fold_left_app. Qed.

Lemma build_model_train_from CL wordlist model :
  fold_left (count_word CL) wordlist model
  = train model (all_transitions CL wordlist).
Proof.
  revert model; induction wordlist as [|w wl IH]; intros model; simpl.
  - reflexivity.
  - rewrite IH, count_word_train, train_app. reflexivity.
Qed.

Lemma build_model_train CL wordlist :
  build_model CL wordlist = train [] (all_transitions CL wordlist).
Proof. apply build_model_train_from. Qed.

Lemma get_row_set_same ctx r m :
  get_row ctx (dict_set str_eqb ctx r m) = r.
Proof. unfold get_row. rewrite (dict_get_set_same _ str_eqb_eq). reflexivity. Qed.

Lemma get_row_set_other ctx ctx' r m :
  ctx' <> ctx -> get_row ctx' (dict_set str_eqb ctx r m) = get_row ctx' m.
Proof.
  intros N. unfold get_row.
  rewrite (dict_get_set_other _ str_eqb_eq) by assumption. reflexivity.
Qed.

Lemma get_count_set_same c v r :
  get_count c (dict_set char_eqb c v r) = v.
Proof.
  unfold get_count. rewrite (dict_get_set_same _ char_eqb_eq). reflexivity.
Qed.

Lemma get_count_set_other c c' v r :
  c' <> c -> get_count c' (dict_set char_eqb c v r) = get_count c' r.
Proof.
  intros N. unfold get_count.
  rewrite (dict_get_set_other _ char_eqb_eq) by assumption. reflexivity.
Qed.

(** The row of [context] after [count_letter context letter model]. *)
Definition counted_row (letter : char) (r : row) : row :=
  let r :=
    if dict_mem char_eqb letter r then r
    else dict_set char_eqb letter 0%Z r in
  dict_set char_eqb letter (get_count letter r + 1)%Z r.

Lemma count_letter_spec ctx c m :
  count_letter ctx c m
  = dict_set str_eqb ctx (counted_row c (get_row ctx m))
      (if dict_mem str_eqb ctx m then m else dict_set str_eqb ctx [] m).
Proof.
  unfold count_letter, counted_row.
  destruct (dict_mem str_eqb ctx m) eqn:E; [reflexivity|].
  rewrite get_row_set_same.
  apply dict_mem_false in E.
  assert (R : get_row ctx m = []) by (unfold get_row; rewrite E; reflexivity).
  rewrite R. reflexivity.
Qed.

Lemma count_letter_row_same ctx c m :
  get_row ctx (count_letter ctx c m) = counted_row c (get_row ctx m).
Proof. rewrite count_letter_spec. apply get_row_set_same. Qed.

Lemma count_letter_row_other ctx ctx' c m :
  ctx' <> ctx -> get_row ctx' (count_letter ctx c m) = get_row ctx' m.
Proof.
  intros N. rewrite count_letter_spec, get_row_set_other by assumption.
  destruct (dict_mem str_eqb ctx m); [reflexivity|].
  apply get_row_set_other; assumption.
Qed.

Lemma counted_row_count_same c r :
  get_count c (counted_row c r) = (get_count c r + 1)%Z.
Proof.
  unfold counted_row. rewrite get_count_set_same.
  destruct (dict_mem char_eqb c r) eqn:E; [reflexivity|].
  rewrite get_count_set_same.
  apply dict_mem_false in E. unfold get_count. rewrite E. reflexivity.
Qed.

Lemma counted_row_count_other c c' r :
  c' <> c -> get_count c' (counted_row c r) = get_count c' r.
Proof.
  intros N. unfold counted_row. rewrite get_count_set_other by assumption.
  destruct (dict_mem char_eqb c r); [reflexivity|].
  apply get_count_set_other; assumption.
Qed.

Lemma counted_row_keys c c' r :
  In c' (keys (counted_row c r)) <-> c' = c \/ In c' (keys r).
Proof.
  unfold counted_row. rewrite (keys_dict_set_In _ char_eqb_eq).
  destruct (dict_mem char_eqb c r); [tauto|].
  rewrite (keys_dict_set_In _ char_eqb_eq). tauto.
Qed.

Lemma counted_row_NoDup c r :
  NoDup (keys r) -> NoDup (keys (counted_row c r)).
Proof.
  intros N. unfold counted_row.
  apply (keys_dict_set_NoDup _ char_eqb_eq).
  destruct (dict_mem char_eqb c r); [assumption|].
  apply (keys_dict_set_NoDup _ char_eqb_eq). assumption.
Qed.

Lemma count_letter_keys ctx ctx' c m :
  In ctx' (keys (count_letter ctx c m)) <-> ctx' = ctx \/ In ctx' (keys m).
Proof.
  rewrite count_letter_spec, (keys_dict_set_In _ str_eqb_eq).
  destruct (dict_mem str_eqb ctx m); [tauto|].
  rewrite (keys_dict_set_In _ str_eqb_eq). tauto.
Qed.

(** How one counted transition changes what the model answers. *)
Lemma count_letter_count ctx c m ctx' c' :
  get_count c' (get_row ctx' (count_letter ctx c m))
  = (get_count c' (get_row ctx' m)
     + if transition_eq_dec (ctx', c') (ctx, c) then 1 else 0)%Z.
Proof.
  destruct (transition_eq_dec (ctx', c') (ctx, c)) as [E|N].
  - inversion E; subst.
    rewrite count_letter_row_same. apply counted_row_count_same.
  - rewrite Z.add_0_r. destruct (str_eq_dec ctx' ctx) as [->|Nc].
    + rewrite count_letter_row_same.
      apply counted_row_count_other. congruence.
    + rewrite count_letter_row_other by assumption. reflexivity.
Qed.

Lemma count_letter_row_keys ctx c m ctx' c' :
  In c' (keys (get_row ctx' (count_letter ctx c m)))
  <-> In c' (keys (get_row ctx' m)) \/ (ctx', c') = (ctx, c).
Proof.
  destruct (str_eq_dec ctx' ctx) as [->|Nc].
  - rewrite count_letter_row_same, counted_row_keys.
    split; [intros [->|I]; auto | intros [I|E]; auto].
    inversion E; auto.
  - rewrite count_letter_row_other by assumption.
    split; [auto | intros [I|E]; auto]. inversion E; contradiction.
Qed.

(** What a trained model answers: the number of times the transition was
    counted. *)
Lemma train_count ts m ctx c :
  get_count c (get_row ctx (train m ts))
  = (get_count c (get_row ctx m)
     + Z.of_nat (count_occ transition_eq_dec ts (ctx, c)))%Z.
Proof.
  revert m; induction ts as [|[ctx0 c0] ts IH]; intros m.
  - unfold train. simpl. lia.
  - unfold train in *. cbn [fold_left fst snd].
    rewrite IH, count_letter_count.
    destruct (transition_eq_dec (ctx, c) (ctx0, c0)) as [E|N].
    + rewrite count_occ_cons_eq by congruence. lia.
    + rewrite count_occ_cons_neq by congruence. lia.
Qed.

Lemma train_row_keys ts m ctx c :
  In c (keys (get_row ctx (train m ts)))
  <-> In c (keys (get_row ctx m)) \/ In (ctx, c) ts.
Proof.
  revert m; induction ts as [|[ctx0 c0] ts IH]; intros m.
  - unfold train. simpl. tauto.
  - unfold train in *. simpl. rewrite IH, count_letter_row_keys.
    intuition congruence.
Qed.

Lemma train_keys ts m ctx :
  In ctx (keys (train m ts))
  <-> In ctx (keys m) \/ exists c, In (ctx, c) ts.
Proof.
  revert m; induction ts as [|[ctx0 c0] ts IH]; intros m.
  - unfold train. simpl. split; [auto | intros [I|[c []]]; assumption].
  - unfold train in *. simpl. rewrite IH, count_letter_keys.
    split.
    + intros [[->|I]|[c I]]; eauto.
    + intros [I|[c [E|I]]]; eauto. inversion E; auto.
Qed.

(** A model keeps one entry per context and one per character of a row. *)
Definition model_wf (m : model_t) : Prop :=
  NoDup (keys m) /\ forall ctx, NoDup (keys (get_row ctx m)).

Lemma count_letter_wf ctx c m : model_wf m -> model_wf (count_letter ctx c m).
Proof.
  intros [Nk Nr]. split.
  - rewrite count_letter_spec. apply (keys_dict_set_NoDup _ str_eqb_eq).
    destruct (dict_mem str_eqb ctx m); [assumption|].
    apply (keys_dict_set_NoDup _ str_eqb_eq). assumption.
  - intros ctx'. destruct (str_eq_dec ctx' ctx) as [->|N].
    + rewrite count_letter_row_same. apply counted_row_NoDup, Nr.
    + rewrite count_letter_row_other by assumption. apply Nr.
Qed.

Lemma train_wf ts m : model_wf m -> model_wf (train m ts).
Proof.
  revert m; induction ts as [|t ts IH]; intros m W; [assumption|].
  unfold train in *. simpl. apply IH, count_letter_wf, W.
Qed.

Lemma empty_model_wf : model_wf [].
Proof. split; [constructor | intros ctx; constructor]. Qed.

(** * Facts about contexts *)

Lemma context_of_zero (x : str) : context_of 0 x = x.
Proof. reflexivity. Qed.

(** A positive context length takes the last characters of the word. *)
Lemma context_of_pos CL (x : str) :
  (0 < CL)%Z -> context_of CL x = rev (firstn (Z.to_nat CL) (rev x)).
Proof.
  intros P. unfold context_of, slice_from.
  destruct (Z.ltb_spec (- CL) 0) as [_|B]; [|lia].
  rewrite firstn_rev, rev_involutive. f_equal. lia.
Qed.

(** The context after one more character depends on the word through its
    context alone. *)
Lemma context_of_snoc CL (x : str) (c : char) :
  (0 <= CL)%Z ->
  context_of CL (x ++ [c]) = context_of CL (context_of CL x ++ [c]).
Proof.
  intros P. destruct (Z.eq_dec CL 0) as [->|N].
  - rewrite !context_of_zero. reflexivity.
  - rewrite !context_of_pos by lia.
    rewrite !rev_app_distr, rev_involutive. cbn [rev app].
    destruct (Z.to_nat CL) as [|n] eqn:E; [lia|].
    rewrite !firstn_cons. cbn [rev]. rewrite firstn_firstn.
    replace (Nat.min n (S n)) with n by lia. reflexivity.
Qed.

Lemma context_of_initiator CL :
  (0 <= CL)%Z -> context_of CL [INITIATOR] = [INITIATOR].
Proof.
  intros P. destruct (Z.eq_dec CL 0) as [->|N]; [reflexivity|].
  rewrite context_of_pos by lia.
  destruct (Z.to_nat CL) as [|n] eqn:E; [lia|]. simpl.
  destruct n; reflexivity.
Qed.

Lemma firstn_succ_nth {A} (l : list A) (i : nat) (d : A) :
  i < length l -> firstn (S i) l = firstn i l ++ [nth i l d].
Proof.
  revert i; induction l as [|x l IH]; intros [|i] L; simpl in *;
    try lia; [reflexivity|].
  rewrite IH by lia. reflexivity.
Qed.

Lemma in_transitions CL (W : str) ctx c :
  In (ctx, c) (transitions CL W)
  <-> exists i, 1 <= i < length W
                /\ ctx = context_of CL (slice_to i W) /\ c = nth i W 0%N.
Proof.
  unfold transitions, range. rewrite in_map_iff. split.
  - intros [i [E I]]. apply in_seq in I. inversion E; subst.
    exists i. repeat split; lia.
  - intros [i [B [-> ->]]]. exists i. split; [reflexivity|].
    apply in_seq. lia.
Qed.

Lemma in_all_transitions CL wordlist ctx c :
  In (ctx, c) (all_transitions CL wordlist)
  <-> exists w i, In w wordlist /\ 1 <= i < length (bounded w)
                  /\ ctx = context_of CL (slice_to i (bounded w))
                  /\ c = nth i (bounded w) 0%N.
Proof.
  unfold all_transitions. rewrite in_flat_map. split.
  - intros [w [I T]]. apply in_transitions in T.
    destruct T as [i T]. exists w, i. tauto.
  - intros [w [i [I T]]]. exists w. split; [assumption|].
    apply in_transitions. exists i. assumption.
Qed.

Lemma length_bounded (w : str) : length (bounded w) = S (S (length w)).
Proof. unfold bounded. simpl. rewrite length_app. simpl. lia. Qed.

(** The characters of a bounded word after the initiator: those of the
    word, then the terminator. *)
Lemma nth_bounded (w : str) (i : nat) :
  1 <= i < length (bounded w) ->
  (i <= length w /\ nth i (bounded w) 0%N = nth (i - 1) w 0%N
   /\ In (nth i (bounded w) 0%N) w)
  \/ (i = S (length w) /\ nth i (bounded w) 0%N = TERMINATOR).
Proof.
  rewrite length_bounded. intros B. unfold bounded.
  destruct i as [|i]; [lia|]. simpl. rewrite Nat.sub_0_r.
  destruct (Nat.lt_ge_cases i (length w)) as [L|G].
  - left. rewrite app_nth1 by assumption.
    repeat split; [lia|]. apply nth_In. assumption.
  - right. assert (i = length w) as -> by lia.
    rewrite nth_middle. split; reflexivity.
Qed.

(** Every context of the model, whatever follows it, is a key; and every
    key of a row was seen after its context. *)
Lemma build_model_row_keys CL wordlist ctx c :
  In c (keys (get_row ctx (build_model CL wordlist)))
  <-> In (ctx, c) (all_transitions CL wordlist).
Proof.
  rewrite build_model_train, train_row_keys. simpl. tauto.
Qed.

Lemma build_model_keys CL wordlist ctx :
  In ctx (keys (build_model CL wordlist))
  <-> exists c, In (ctx, c) (all_transitions CL wordlist).
Proof.
  rewrite build_model_train, train_keys. simpl. tauto.
Qed.

Lemma build_model_wf CL wordlist : model_wf (build_model CL wordlist).
Proof. rewrite build_model_train. apply train_wf, empty_model_wf. Qed.

Lemma build_model_count CL wordlist ctx c :
  get_count c (get_row ctx (build_model CL wordlist))
  = Z.of_nat (count_occ transition_eq_dec (all_transitions CL wordlist)
                (ctx, c)).
Proof. rewrite build_model_train, train_count. reflexivity. Qed.

(** The start of every word is a context of the model. *)
Lemma build_model_start CL wordlist :
  (0 <= CL)%Z -> wordlist <> [] ->
  In [INITIATOR] (keys (build_model CL wordlist)).
Proof.
  intros P N. destruct wordlist as [|w wl]; [congruence|].
  apply build_model_keys. exists (nth 1 (bounded w) 0%N).
  apply in_all_transitions. exists w, 1.
  rewrite length_bounded. repeat split; [left; reflexivity | lia | lia |].
  simpl. symmetry. apply context_of_initiator. assumption.
Qed.

(** A character that is not the terminator leads to a context of the
    model. *)
Lemma build_model_next CL wordlist (word : str) (c : char) :
  (0 <= CL)%Z ->
  In c (keys (get_row (context_of CL word) (build_model CL wordlist))) ->
  c <> TERMINATOR ->
  In (context_of CL (word ++ [c])) (keys (build_model CL wordlist)).
Proof.
  intros P I N. apply build_model_row_keys, in_all_transitions in I.
  destruct I as [w [i [Iw [B [Ec Ei]]]]].
  destruct (nth_bounded B) as [[L _]|[_ T]]; [|congruence].
  rewrite length_bounded in B.
  apply build_model_keys. exists (nth (S i) (bounded w) 0%N).
  apply in_all_transitions. exists w, (S i).
  rewrite length_bounded. repeat split; [assumption | lia | lia |].
  unfold slice_to in *.
  rewrite (firstn_succ_nth (bounded w) 0%N) by (rewrite length_bounded; lia).
  rewrite <- Ei.
  rewrite (context_of_snoc word c P).
  rewrite (context_of_snoc (firstn i (bounded w)) c P).
  rewrite Ec. reflexivity.
Qed.

(** * Facts about the weights of a step *)

Lemma bind_Return {A B} (m : result A) (k : A -> result B) (b : B) :
  bind m k = Return b -> exists a, m = Return a /\ k a = Return b.
Proof. destruct m; simpl; try discriminate. eauto. Qed.

Lemma bind_Raise {A B} (m : result A) (k : A -> result B) (e : exn) :
  bind m k = Raise e ->
  m = Raise e \/ exists a, m = Return a /\ k a = Raise e.
Proof.
  destruct m; simpl; try discriminate; intros E;
    [right; eauto | left; inversion E; reflexivity].
Qed.

Lemma item_Return {A} (i : nat) (l : list A) (x d : A) :
  item i l = Return x -> i < length l /\ nth i l d = x.
Proof.
  unfold item. destruct (nth_error l i) eqn:E; [|discriminate].
  intros Eq; inversion Eq; subst. split.
  - apply nth_error_Some. congruence.
  - apply nth_error_nth. assumption.
Qed.

Lemma last_item_Return {A} (l : list A) (x d : A) :
  last_item l = Return x -> l <> [] /\ nth (length l - 1) l d = x.
Proof.
  unfold last_item. destruct (rev l) as [|y r] eqn:E; [discriminate|].
  intros Eq; inversion Eq; subst.
  apply (f_equal (@rev A)) in E. rewrite rev_involutive in E. simpl in E.
  subst l. split; [destruct (rev r); discriminate|].
  rewrite length_app. simpl. rewrite Nat.add_sub, nth_middle. reflexivity.
Qed.

Lemma last_item_snoc {A} (l : list A) (x : A) :
  last_item (l ++ [x]) = Return x.
Proof. unfold last_item. rewrite rev_app_distr. reflexivity. Qed.

Lemma last_item_not_KeyError {A} (l : list A) : last_item l <> Raise KeyError.
Proof. unfold last_item. destruct (rev l); discriminate. Qed.

Lemma item_not_KeyError {A} (i : nat) (l : list A) :
  item i l <> Raise KeyError.
Proof. unfold item. destruct (nth_error l i); discriminate. Qed.

Section WeightFacts.
Context {F : FloatOps}.

Lemma keys_as_weights (r : row) : keys (as_weights r) = keys r.
Proof. unfold keys, as_weights. rewrite map_map. reflexivity. Qed.

Lemma dict_get_as_weights (c : char) (r : row) :
  dict_get char_eqb c (as_weights r)
  = option_map Int (dict_get char_eqb c r).
Proof.
  induction r as [|[k v] r IH]; simpl; [reflexivity|].
  destruct (char_eqb c k); [reflexivity | assumption].
Qed.

Lemma get_weight_as_weights (c : char) (r : row) :
  get_weight c (as_weights r) = Int (get_count c r).
Proof.
  unfold get_weight, get_count. rewrite dict_get_as_weights.
  destruct (dict_get char_eqb c r); reflexivity.
Qed.

Lemma dict_mem_as_weights (c : char) (r : row) :
  dict_mem char_eqb c (as_weights r) = dict_mem char_eqb c r.
Proof.
  unfold dict_mem. rewrite dict_get_as_weights.
  destruct (dict_get char_eqb c r); reflexivity.
Qed.

(** The factor is the entry of the distribution at the length of the
    in-progress word, or the last entry past the end. *)
Lemma terminator_factor_Return distribution (word : str) x :
  terminator_factor distribution word = Return x ->
  x = nth (Nat.min (length word) (length distribution - 1)) distribution
        (Int 0).
Proof.
  unfold terminator_factor.
  destruct (Nat.ltb_spec (length word) (length distribution)) as [L|G];
    intros E.
  - apply (item_Return _ _ (Int 0)) in E. destruct E as [_ <-].
    f_equal. lia.
  - apply (last_item_Return _ (Int 0)) in E. destruct E as [_ <-].
    f_equal. lia.
Qed.

Lemma terminator_factor_not_KeyError distribution (word : str) :
  terminator_factor distribution word <> Raise KeyError.
Proof.
  unfold terminator_factor. destruct (_ <? _).
  - apply item_not_KeyError.
  - apply last_item_not_KeyError.
Qed.

Variable CONTEXT_LENGTH : Z.

(** The weights of a step have the keys of the row of the model, in the
    same order. *)
Lemma next_weights_keys model distribution word weights :
  next_weights CONTEXT_LENGTH model distribution word = Return weights ->
  keys weights = keys (get_row (context_of CONTEXT_LENGTH word) model).
Proof.
  unfold next_weights, get_row.
  destruct (dict_get str_eqb _ model) as [r|]; [|discriminate].
  destruct (dict_mem char_eqb TERMINATOR (as_weights r)) eqn:M.
  - intros E. apply bind_Return in E. destruct E as [x [_ E]].
    inversion E; subst.
    rewrite (keys_dict_set_present _ char_eqb_eq), keys_as_weights;
      [reflexivity|].
    apply (dict_mem_In_keys _ char_eqb_eq). assumption.
  - intros E; inversion E; subst. apply keys_as_weights.
Qed.

(** A context that is a key of the model is looked up without error. *)
Lemma next_weights_not_KeyError model distribution word :
  In (context_of CONTEXT_LENGTH word) (keys model) ->
  next_weights CONTEXT_LENGTH model distribution word <> Raise KeyError.
Proof.
  intros I. unfold next_weights.
  apply (dict_get_In_keys _ str_eqb_eq) in I.
  destruct (dict_get str_eqb _ model) as [r|]; [|congruence].
  destruct (dict_mem char_eqb TERMINATOR (as_weights r)); [|discriminate].
  intros E. apply bind_Raise in E. destruct E as [E|[x [_ E]]].
  - exact (terminator_factor_not_KeyError _ _ E).
  - discriminate.
Qed.
End WeightFacts.

(** * Facts about the generation loop *)

(** A character that is neither sentinel. *)
Definition plain (c : char) : Prop := c <> INITIATOR /\ c <> TERMINATOR.

(** Words as the normalizer leaves them: not empty, without sentinels. *)
Definition vocabulary (wordlist : list str) : Prop :=
  forall w, In w wordlist -> w <> [] /\ Forall plain w.

Lemma generate_loop_unfold {F : FloatOps} {R : Random} CL fuel model
  distribution word g :
  generate_loop CL (S fuel) model distribution word g
  = (final <- last_item word ;;
     if negb (char_eqb final TERMINATOR)
     then weights <- next_weights CL model distribution word ;;
          drawn <- choices g (keys weights) (values weights) ;;
          generate_loop CL fuel model distribution
            (word ++ [fst drawn]) (snd drawn)
     else Return (word, g)).
Proof. reflexivity. Qed.

Section LoopFacts.
Context {F : FloatOps} {R : Random}.
Variable CL : Z.
Hypothesis CL_nonneg : (0 <= CL)%Z.
Variable wordlist : list str.

Let model := build_model CL wordlist.

(** The loop never meets a context that the model lacks. *)
Lemma generate_loop_not_KeyError fuel distribution word g :
  last_item word = Return TERMINATOR
  \/ In (context_of CL word) (keys model) ->
  generate_loop CL fuel model distribution word g <> Raise KeyError.
Proof.
  revert word g; induction fuel as [|fuel IH]; intros word g Inv;
    [discriminate|].
  rewrite generate_loop_unfold. intros E.
  apply bind_Raise in E. destruct E as [E|[final [L E]]].
  { exact (last_item_not_KeyError _ E). }
  destruct (char_eqb final TERMINATOR) eqn:T; simpl in E; [discriminate|].
  destruct Inv as [Inv|Inv].
  { rewrite Inv in L. inversion L; subst.
    rewrite char_eqb_refl in T. discriminate. }
  apply bind_Raise in E. destruct E as [E|[weights [W E]]].
  { exact (next_weights_not_KeyError _ _ _ _ Inv E). }
  apply bind_Raise in E. destruct E as [E|[[c g'] [D E]]].
  { exact (choices_Raise _ _ _ E). }
  simpl in E. apply IH in E; [assumption|].
  destruct (N.eq_dec c TERMINATOR) as [->|N].
  - left. apply last_item_snoc.
  - right. apply build_model_next; try assumption.
    apply choices_In in D.
    rewrite (next_weights_keys _ _ _ _ W) in D. exact D.
Qed.

Hypothesis words_ok : vocabulary wordlist.

(** What follows a context in the model is a character of a word or the
    terminator, never the initiator. *)
Lemma row_key_plain ctx c :
  In c (keys (get_row ctx model)) -> c = TERMINATOR \/ plain c.
Proof.
  intros I. apply build_model_row_keys, in_all_transitions in I.
  destruct I as [w [i [Iw [B [_ ->]]]]].
  destruct (nth_bounded B) as [[_ [_ Ic]]|[_ T]]; [|left; exact T].
  right. destruct (words_ok w Iw) as [_ Pw].
  rewrite Forall_forall in Pw. apply Pw. exact Ic.
Qed.

(** What follows the start of a word is not the terminator. *)
Lemma first_key_plain c :
  In c (keys (get_row (context_of CL [INITIATOR]) model)) -> plain c.
Proof.
  intros I. destruct (row_key_plain _ _ I) as [->|Pc]; [|exact Pc].
  exfalso. rewrite context_of_initiator in I by assumption.
  apply build_model_row_keys, in_all_transitions in I.
  destruct I as [w [i [Iw [B [Ec Et]]]]].
  destruct (words_ok w Iw) as [Ne Pw].
  destruct (nth_bounded B) as [[L [_ Ic]]|[Ei _]].
  { rewrite <- Et in Ic. rewrite Forall_forall in Pw.
    destruct (Pw _ Ic) as [_ NT]. congruence. }
  subst i. unfold slice_to, bounded in Ec.
  rewrite firstn_cons, firstn_app, Nat.sub_diag, firstn_all in Ec.
  simpl in Ec. rewrite app_nil_r in Ec.
  destruct (Z.eq_dec CL 0) as [Z0|NZ].
  - rewrite Z0, context_of_zero in Ec. destruct w; [|discriminate].
    congruence.
  - rewrite context_of_pos in Ec by lia.
    destruct (Z.to_nat CL) as [|n] eqn:En; [lia|].
    destruct (rev w) as [|x r] eqn:Er.
    + apply (f_equal (@rev char)) in Er. rewrite rev_involutive in Er.
      simpl in Er. congruence.
    + assert (Ix : In x w) by (apply in_rev; rewrite Er; left; reflexivity).
      rewrite Forall_forall in Pw. destruct (Pw _ Ix) as [NI _].
      simpl in Ec. rewrite Er in Ec. simpl in Ec.
      apply (f_equal (@rev char)) in Ec.
      rewrite rev_app_distr in Ec. simpl in Ec. congruence.
Qed.

(** A loop that returns has appended plain characters and then the
    terminator. *)
Lemma generate_loop_Return fuel distribution word g word' g' :
  generate_loop CL fuel model distribution word g = Return (word', g') ->
  (forall final, last_item word = Return final -> final <> TERMINATOR) ->
  exists rest,
    word' = word ++ rest ++ [TERMINATOR] /\ Forall plain rest.
Proof.
  revert word g; induction fuel as [|fuel IH]; intros word g E NT;
    [discriminate|].
  rewrite generate_loop_unfold in E.
  apply bind_Return in E. destruct E as [final [L E]].
  destruct (char_eqb final TERMINATOR) eqn:T; simpl in E.
  { apply char_eqb_eq in T. subst. destruct (NT _ L eq_refl). }
  apply bind_Return in E. destruct E as [weights [W E]].
  apply bind_Return in E. destruct E as [[c g1] [D E]].
  simpl in E. apply choices_In in D.
  rewrite (next_weights_keys _ _ _ _ W) in D.
  destruct (row_key_plain _ _ D) as [->|Pc].
  - destruct fuel as [|fuel]; [discriminate|].
    rewrite generate_loop_unfold, last_item_snoc in E.
    cbn [bind fst snd] in E. rewrite char_eqb_refl in E.
    cbn [negb] in E. inversion E; subst.
    exists []. split; [reflexivity | constructor].
  - apply IH in E.
    + destruct E as [rest [-> Pr]]. exists (c :: rest).
      rewrite <- app_assoc. split; [reflexivity|].
      constructor; assumption.
    + intros final'. rewrite last_item_snoc.
      intros Eq; inversion Eq; subst. apply Pc.
Qed.
End LoopFacts.

(** * Facts about strip, split and parse_words *)

Lemma lstrip_Forall (Q : char -> Prop) chars s :
  Forall Q s -> Forall Q (lstrip chars s).
Proof.
  induction s as [|c s IH]; simpl; intros A; [constructor|].
  destruct (char_in c chars); [|assumption].
  inversion A; auto.
Qed.

Lemma rev_Forall {A} (Q : A -> Prop) (l : list A) :
  Forall Q l -> Forall Q (rev l).
Proof.
  rewrite !Forall_forall. intros A0 x I. apply A0, in_rev, I.
Qed.

Lemma strip_Forall (Q : char -> Prop) chars s :
  Forall Q s -> Forall Q (strip chars s).
Proof.
  intros A. unfold strip, rstrip.
  apply rev_Forall, lstrip_Forall, rev_Forall, lstrip_Forall, A.
Qed.

Lemma lstrip_stop chars c s :
  char_in c chars = false -> lstrip chars (c :: s) = c :: s.
Proof. intros E. simpl. rewrite E. reflexivity. Qed.

Lemma plain_not_sentinel c :
  plain c -> char_in c [INITIATOR; TERMINATOR] = false.
Proof.
  intros [NI NT]. unfold char_in. simpl.
  destruct (char_eqb c INITIATOR) eqn:E1;
    [apply char_eqb_eq in E1; contradiction|].
  destruct (char_eqb c TERMINATOR) eqn:E2;
    [apply char_eqb_eq in E2; contradiction|].
  reflexivity.
Qed.

(** Stripping the sentinels of a bounded word gives the word back. *)
Lemma strip_bounded (body : str) :
  body <> [] -> Forall plain body ->
  strip [INITIATOR; TERMINATOR] (INITIATOR :: body ++ [TERMINATOR]) = body.
Proof.
  intros Ne Pb. unfold strip, rstrip.
  destruct body as [|c body]; [congruence|].
  assert (Pc : plain c) by (inversion Pb; assumption).
  change (lstrip [INITIATOR; TERMINATOR]
            (INITIATOR :: (c :: body) ++ [TERMINATOR]))
    with (lstrip [INITIATOR; TERMINATOR] (c :: body ++ [TERMINATOR])).
  rewrite lstrip_stop by (apply plain_not_sentinel; assumption).
  change (c :: body ++ [TERMINATOR]) with ((c :: body) ++ [TERMINATOR]).
  rewrite rev_app_distr.
  change (rev [TERMINATOR] ++ rev (c :: body))
    with (TERMINATOR :: rev (c :: body)).
  change (lstrip [INITIATOR; TERMINATOR] (TERMINATOR :: rev (c :: body)))
    with (lstrip [INITIATOR; TERMINATOR] (rev (c :: body))).
  destruct (rev (c :: body)) as [|x r] eqn:Er.
  - apply (f_equal (@rev char)) in Er. rewrite rev_involutive in Er.
    discriminate.
  - assert (Px : plain x).
    { rewrite Forall_forall in Pb. apply Pb, in_rev. rewrite Er.
      left; reflexivity. }
    rewrite lstrip_stop by (apply plain_not_sentinel; assumption).
    rewrite <- Er. apply rev_involutive.
Qed.

Lemma split_from_Forall (Q : char -> Prop) s cur tok :
  Forall Q cur ->
  (forall c, In c s -> isspace c = false -> Q c) ->
  In tok (split_from cur s) -> Forall Q tok.
Proof.
  revert cur; induction s as [|c s IH]; intros cur Qc Qs; simpl.
  - destruct cur; simpl; [tauto|]. intros [<-|[]]. exact (rev_Forall Qc).
  - destruct (isspace c) eqn:Sp.
    + assert (Nx : In tok (split_from [] s) -> Forall Q tok).
      { apply IH; [constructor | intros; apply Qs; simpl; auto]. }
      destruct cur; simpl; [assumption|].
      intros [<-|I]; [exact (rev_Forall Qc) | auto].
    + apply IH.
      * constructor; [apply Qs; simpl; auto | assumption].
      * intros; apply Qs; simpl; auto.
Qed.

Lemma In_keep_long CL rawlist w :
  In w (keep_long CL rawlist) <->
  exists w0, In w0 rawlist /\ w = strip [HYPHEN] w0
             /\ (CL < Z.of_nat (length w))%Z.
Proof.
  induction rawlist as [|w0 raw IH]; simpl.
  - split; [tauto | intros [? [[] _]]].
  - destruct (Z.gtb_spec (Z.of_nat (length (strip [HYPHEN] w0))) CL)
      as [G|L]; simpl; rewrite IH; split.
    + intros [<-|[w1 [I E]]]; eauto.
    + intros [w1 [[->|I] [E L]]]; eauto.
    + intros [w1 [I E]]; eauto.
    + intros [w1 [[->|I] [E G]]]; eauto. subst. lia.
Qed.

Section ParseFacts.
Context {U : UnicodeData} {H : HashSeed}.
Variable CL : Z.

Lemma desired_plain c : desired c = true -> plain c.
Proof.
  intros D. split; intros ->; unfold desired in D;
    [rewrite category_INITIATOR in D | rewrite category_TERMINATOR in D];
    discriminate.
Qed.

Lemma strip_special_Forall s c :
  In c (strip_special s) -> isspace c = false -> desired c = true.
Proof.
  unfold strip_special. rewrite in_map_iff.
  intros [c0 [E _]]. destruct (desired c0) eqn:D; subst; [auto|].
  discriminate.
Qed.

(** What [parse_words] returns on a text. *)
Lemma parse_words_Some text wordlist :
  parse_words CL (Some text) = Some wordlist ->
  NoDup wordlist
  /\ forall w, In w wordlist ->
       Forall (fun c => desired c = true) w
       /\ (CL < Z.of_nat (length w))%Z.
Proof.
  unfold parse_words. intros E; inversion E; subst; clear E.
  split; [apply list_set_NoDup|].
  intros w I. apply (proj1 (list_set_In _ _)), In_keep_long in I.
  destruct I as [w0 [I [-> L]]]. split; [|exact L].
  apply strip_Forall. apply (proj1 (list_set_In _ _)) in I.
  eapply split_from_Forall; [constructor | | exact I].
  apply strip_special_Forall.
Qed.

Lemma parse_words_vocabulary text wordlist :
  (0 <= CL)%Z ->
  parse_words CL text = Some wordlist -> vocabulary wordlist.
Proof.
  intros P E. destruct text as [text|]; [|discriminate].
  apply parse_words_Some in E. destruct E as [_ A].
  intros w I. destruct (A w I) as [D L]. split.
  - destruct w; [simpl in L; lia | discriminate].
  - eapply Forall_impl; [|exact D]. intros c. apply desired_plain.
Qed.
End ParseFacts.

(** * Facts about generate_word and generate_words *)

Section WordFacts.
Context {F : FloatOps} {R : Random}.
Variable CL : Z.
Hypothesis CL_nonneg : (0 <= CL)%Z.
Variable wordlist : list str.
Hypothesis words_ok : vocabulary wordlist.

(** A generated word is what the loop appended before the terminator,
    and it has at least one character. *)
Lemma generate_word_Return fuel distribution g word g' :
  generate_word CL fuel (build_model CL wordlist) distribution g
  = Return (word, g') ->
  generate_loop CL fuel (build_model CL wordlist) distribution
    [INITIATOR] g
  = Return (INITIATOR :: word ++ [TERMINATOR], g')
  /\ word <> [] /\ Forall plain word.
Proof.
  unfold generate_word. intros E.
  apply bind_Return in E. destruct E as [[raw g1] [E Eq]].
  cbn [fst snd] in Eq. injection Eq as Ew Eg. subst g1.
  assert (S : exists body,
             raw = INITIATOR :: body ++ [TERMINATOR]
             /\ body <> [] /\ Forall plain body).
  { destruct fuel as [|fuel]; [discriminate|].
    pose proof E as E0.
    rewrite generate_loop_unfold in E0.
    change (last_item [INITIATOR]) with (Return INITIATOR) in E0.
    cbn [bind] in E0.
    change (negb (char_eqb INITIATOR TERMINATOR)) with true in E0.
    apply bind_Return in E0. destruct E0 as [weights [W E0]].
    apply bind_Return in E0. destruct E0 as [[c g1] [D E0]].
    cbn [fst snd] in E0. apply choices_In in D.
    rewrite (next_weights_keys _ _ _ _ W) in D.
    apply (first_key_plain CL_nonneg words_ok) in D.
    apply (generate_loop_Return CL words_ok) in E0.
    - destruct E0 as [rest [-> Pr]]. exists (c :: rest).
      repeat split; [discriminate | constructor; assumption].
    - intros final. rewrite last_item_snoc.
      intros Eq; inversion Eq; subst. apply D. }
  destruct S as [body [-> [Ne Pb]]].
  rewrite strip_bounded in Ew by assumption. subst word.
  repeat split; assumption.
Qed.
End WordFacts.

Lemma sample_loop_unfold {F : FloatOps} {R : Random} CL fuel model
  distribution wordlist count generated g :
  sample_loop CL fuel model distribution wordlist count generated g
  = if (Z.of_nat (length generated) <? count)%Z
    then match fuel with
         | 0 => OutOfFuel
         | S fuel' =>
             out <- generate_word CL fuel model distribution g ;;
             let word := fst out in
             if str_in word wordlist || str_in word generated
             then sample_loop CL fuel' model distribution wordlist count
                    generated (snd out)
             else sample_loop CL fuel' model distribution wordlist count
                    (generated ++ [word]) (snd out)
         end
    else Return (generated, g).
Proof. destruct fuel; reflexivity. Qed.

Section SampleFacts.
Context {F : FloatOps} {R : Random}.
Variable CL : Z.

(** The accumulator holds distinct words that are not in the word list,
    and the loop stops when it holds [count] of them. *)
Lemma sample_loop_Return fuel model distribution wordlist count
  generated g out g' :
  sample_loop CL fuel model distribution wordlist count generated g
  = Return (out, g') ->
  NoDup generated ->
  (forall x, In x generated -> ~ In x wordlist) ->
  (Z.of_nat (length generated) <= count)%Z ->
  NoDup out
  /\ (forall x, In x out -> ~ In x wordlist)
  /\ Z.of_nat (length out) = count.
Proof.
  revert generated g; induction fuel as [|fuel IH];
    intros generated g E Nd Nw Le; rewrite sample_loop_unfold in E;
    destruct (Z.ltb_spec (Z.of_nat (length generated)) count) as [Lt|Ge];
    try discriminate;
    try (inversion E; subst; repeat split; [assumption | assumption | lia]).
  apply bind_Return in E. destruct E as [[word g1] [_ E]].
  cbn [fst snd] in E.
  destruct (str_in word wordlist) eqn:Iw; simpl in E;
    [apply IH in E; assumption|].
  destruct (str_in word generated) eqn:Ig;
    [apply IH in E; assumption|].
  apply str_in_not_In in Iw, Ig.
  apply IH in E; [assumption | | |].
  - apply NoDup_app; [assumption | constructor; [tauto | constructor] |].
    intros x Ix [<-|[]]. contradiction.
  - intros x Ix. apply in_app_or in Ix.
    destruct Ix as [Ix|[<-|[]]]; auto.
  - rewrite length_app. simpl. lia.
Qed.

(** With nothing to generate the loop body is not entered. *)
Lemma sample_loop_zero fuel model distribution wordlist count g :
  (count <= 0)%Z ->
  sample_loop CL fuel model distribution wordlist count [] g
  = Return ([], g).
Proof.
  intros Le. rewrite sample_loop_unfold. simpl.
  destruct (Z.ltb_spec 0 count); [lia | reflexivity].
Qed.
End SampleFacts.

(** * The model does not depend on the order of the words *)

Lemma all_transitions_Permutation CL (l1 l2 : list str) :
  Permutation l1 l2 ->
  Permutation (all_transitions CL l1) (all_transitions CL l2).
Proof.
  intros P. unfold all_transitions. induction P; simpl.
  - constructor.
  - apply Permutation_app_head. assumption.
  - rewrite !app_assoc. apply Permutation_app_tail, Permutation_app_comm.
  - etransitivity; eassumption.
Qed.

(** Two models agree when they hold the same contexts and answer the same
    count for every context and character. *)
Definition same_table (m1 m2 : model_t) : Prop :=
  (forall ctx, In ctx (keys m1) <-> In ctx (keys m2))
  /\ (forall ctx c,
         In c (keys (get_row ctx m1)) <-> In c (keys (get_row ctx m2)))
  /\ (forall ctx c,
         get_count c (get_row ctx m1) = get_count c (get_row ctx m2)).

Lemma build_model_Permutation CL (l1 l2 : list str) :
  Permutation l1 l2 ->
  same_table (build_model CL l1) (build_model CL l2).
Proof.
  intros P. apply (all_transitions_Permutation CL) in P.
  split; [|split].
  - intros ctx. rewrite !build_model_keys.
    split; intros [c I]; exists c.
    + eapply Permutation_in; eassumption.
    + eapply Permutation_in; [symmetry|]; eassumption.
  - intros ctx c. rewrite !build_model_row_keys.
    split; intros I.
    + eapply Permutation_in; eassumption.
    + eapply Permutation_in; [symmetry|]; eassumption.
  - intros ctx c. rewrite !build_model_count. f_equal.
    apply Permutation_count_occ. assumption.
Qed.

(** Under two hash seeds [parse_words] returns the same words, maybe in
    another order. *)
Lemma parse_words_Permutation {U : UnicodeData} (H1 H2 : HashSeed) CL text
  l1 l2 :
  parse_words (H := H1) CL text = Some l1 ->
  parse_words (H := H2) CL text = Some l2 ->
  Permutation l1 l2.
Proof.
  destruct text as [text|]; [|discriminate].
  unfold parse_words. intros E1 E2.
  inversion E1; subst; clear E1. inversion E2; subst; clear E2.
  apply NoDup_Permutation; try apply list_set_NoDup.
  intros w. rewrite !list_set_In, !In_keep_long.
  split; intros [w0 [I E]]; exists w0; split; try assumption;
    apply list_set_In; apply (proj1 (list_set_In _ _)) in I; exact I.
Qed.

(** A row with a single key. *)
Lemma single_key_row (r : row) (a : char) :
  NoDup (keys r) ->
  (forall c, In c (keys r) <-> c = a) ->
  r = [(a, get_count a r)].
Proof.
  intros Nd I. destruct r as [|[k v] r].
  - destruct (proj2 (I a) eq_refl).
  - assert (k = a) as -> by (apply I; left; reflexivity).
    destruct r as [|[k' v'] r].
    + unfold get_count. simpl. rewrite char_eqb_refl. reflexivity.
    + assert (k' = a) as -> by (apply I; right; left; reflexivity).
      inversion Nd; subst. simpl in *. tauto.
Qed.

Lemma get_row_nonempty ctx (m : model_t) (r : row) :
  get_row ctx m = r -> r <> [] -> dict_get str_eqb ctx m = Some r.
Proof.
  unfold get_row. destruct (dict_get str_eqb ctx m); congruence.
Qed.

(** * Facts about the length distribution *)

Lemma dict_set_twice {K V} (eqb : K -> K -> bool) k (v v' : V) d :
  (forall a, eqb a a = true) ->
  dict_set eqb k v' (dict_set eqb k v d) = dict_set eqb k v' d.
Proof.
  intros Refl. induction d as [|[k0 v0] d IH]; simpl.
  - rewrite Refl. reflexivity.
  - destruct (eqb k k0) eqn:E; simpl; rewrite E; [reflexivity|].
    rewrite IH. reflexivity.
Qed.



Lemma count_length_spec (d : histogram) (word : str) :
  count_length d word
  = dict_set Nat.eqb (length word) (get_length (length word) d + 1)%Z d.
Proof.
  unfold count_length.
  destruct (dict_mem Nat.eqb (length word) d) eqn:M; [reflexivity|].
  rewrite dict_set_twice by apply Nat.eqb_refl.
  unfold get_length at 1.
  rewrite (dict_get_set_same _ nat_eqb_eq).
  apply dict_mem_false in M. unfold get_length. rewrite M. reflexivity.
Qed.







Lemma insert_sorted_Permutation kv (d : histogram) :
  Permutation (insert_sorted kv d) (kv :: d).
Proof.
  induction d as [|kv' d IH]; simpl; [reflexivity|].
  destruct (_ <? _); [reflexivity|].
  rewrite IH. apply perm_swap.
Qed.

Lemma sorted_items_Permutation (d : histogram) :
  Permutation (sorted_items d) d.
Proof.
  induction d as [|kv d IH]; simpl; [reflexivity|].
  rewrite insert_sorted_Permutation. constructor. exact IH.
Qed.




Section Monotone.
Context {F : FloatOps}.
Variable fle : float -> float -> Prop.

Let zero := float_of_int 0.

(** What the argument uses of the order of floats; the five hold of the
    real numbers, and of the finite IEEE floats. *)
Hypothesis fle_zero : fle zero zero.
Hypothesis fle_refl : forall x, fle zero x -> fle x x.
Hypothesis fle_trans : forall x y w, fle x y -> fle y w -> fle x w.
Hypothesis fadd_nonneg :
  forall x y, fle zero x -> fle zero y -> fle x (fadd x y).
Hypothesis root_nonneg :
  forall a b, (0 < a)%Z -> (0 < b)%Z ->
    fle zero (fpow_half (fdiv (float_of_int a) (float_of_int b))).








End Monotone.

(** ** The real numbers as floats without rounding *)




(** * Facts about generate_word on objects *)

Unset Implicit Arguments.

Section ObjectFacts.
Context {F : FloatOps} {R : Random}.
Variable CL : Z.

(** A computation keeps the objects below [n]: it leaves them as they are
    and removes nothing. *)
Definition keeps (n : nat) {A} (m : heap -> outcome A) : Prop :=
  forall h, n <= length h ->
    (forall a, a < n -> nth_error (final_heap (m h)) a = nth_error h a)
    /\ n <= length (final_heap (m h)).

Lemma keeps_lift n {A} (r : result A) : keeps n (lift r).
Proof. intros h L. destruct r; simpl; auto. Qed.

Lemma keeps_read_weights n a : keeps n (read_weights a).
Proof.
  intros h L. unfold read_weights.
  destruct (nth_error h a) as [[d|d]|]; simpl; auto.
Qed.

Lemma keeps_read_table n a : keeps n (read_table a).
Proof.
  intros h L. unfold read_table.
  destruct (nth_error h a) as [[d|d]|]; simpl; auto.
Qed.

Lemma nth_error_replace_nth_other (h : heap) (a b : nat) (o : object) :
  a <> b -> nth_error (replace_nth a o h) b = nth_error h b.
Proof.
  revert a b; induction h as [|x h IH]; intros [|a] [|b] N; simpl;
    try reflexivity; try congruence.
  apply IH. congruence.
Qed.

Lemma length_replace_nth (h : heap) (a : nat) (o : object) :
  length (replace_nth a o h) = length h.
Proof.
  revert a; induction h as [|x h IH]; intros [|a]; simpl; auto.
Qed.

Lemma replace_nth_last (h : heap) (o o' : object) :
  replace_nth (length h) o' (h ++ [o]) = h ++ [o'].
Proof. induction h as [|x h IH]; simpl; [reflexivity | rewrite IH; auto]. Qed.

(** Writing at or above [n] keeps the objects below [n]. *)
Lemma keeps_write n a o : n <= a -> keeps n (write a o).
Proof.
  intros La h L. unfold write. simpl. split.
  - intros b Lb. apply nth_error_replace_nth_other. lia.
  - rewrite length_replace_nth. exact L.
Qed.

Lemma keeps_and_then n {A B} (m : heap -> outcome A)
  (k : A -> heap -> outcome B) :
  keeps n m -> (forall x, keeps n (k x)) -> keeps n (and_then m k).
Proof.
  intros Km Kk h L. unfold and_then.
  destruct (Km h L) as [Em Lm].
  destruct (m h) as [x h'|e h'|h']; simpl in *; auto.
  destruct (Kk x h' Lm) as [Ek Lk]. split; [|exact Lk].
  intros a La. rewrite Ek, Em by assumption. reflexivity.
Qed.

(** A new object gets an address at or above [n]. *)
Lemma keeps_allocate n {B} (o : object) (k : nat -> heap -> outcome B) :
  (forall a, n <= a -> keeps n (k a)) -> keeps n (and_then (allocate o) k).
Proof.
  intros Kk h L. unfold and_then, allocate.
  assert (L' : n <= length (h ++ [o])) by (rewrite length_app; lia).
  destruct (Kk (length h) L (h ++ [o]) L') as [Ek Lk]. split; [|exact Lk].
  intros a La. rewrite Ek by assumption. apply nth_error_app1. lia.
Qed.

Lemma next_weights_at_keeps n model distribution word :
  keeps n (next_weights_at CL model distribution word).
Proof.
  unfold next_weights_at.
  apply keeps_and_then; [apply keeps_read_table|]. intros table.
  destruct (dict_get str_eqb _ table) as [ra|]; [|apply keeps_lift].
  apply keeps_and_then; [apply keeps_read_weights|]. intros d.
  destruct (dict_mem char_eqb TERMINATOR d); [|apply keeps_lift].
  apply keeps_allocate. intros a La.
  apply keeps_and_then; [apply keeps_lift|]. intros factor.
  apply keeps_and_then; [apply keeps_read_weights|]. intros d'.
  apply keeps_and_then; [apply keeps_write; exact La|]. intros _.
  apply keeps_lift.
Qed.

Lemma generate_loop_at_keeps n fuel model distribution word g :
  keeps n (generate_loop_at CL fuel model distribution word g).
Proof.
  revert word g; induction fuel as [|fuel IH]; intros word g; simpl;
    [apply keeps_lift|].
  apply keeps_and_then; [apply keeps_lift|]. intros final.
  destruct (negb (char_eqb final TERMINATOR)); [|apply keeps_lift].
  apply keeps_and_then; [apply next_weights_at_keeps|]. intros weights.
  apply keeps_and_then; [apply keeps_read_weights|]. intros d.
  apply keeps_and_then; [apply keeps_lift|]. intros drawn.
  apply IH.
Qed.

Lemma generate_word_at_keeps n fuel model distribution g :
  keeps n (generate_word_at CL fuel model distribution g).
Proof.
  unfold generate_word_at.
  apply keeps_and_then; [apply generate_loop_at_keeps|]. intros out.
  apply keeps_lift.
Qed.

Lemma keeps_extends {A} (m : heap -> outcome A) (h : heap) :
  keeps (length h) m -> extends h (final_heap (m h)).
Proof. intros K a La. apply (K h (Nat.le_refl _)). exact La. Qed.

Lemma holds_extends (h h' : heap) (a : nat) (m : model_t) :
  holds h a m -> extends h h' -> holds h' a m.
Proof.
  intros [table [Et Hr]] Ex. exists table. split.
  - rewrite Ex; [exact Et|]. apply nth_error_Some. congruence.
  - intros context. specialize (Hr context).
    destruct (dict_get str_eqb context table) as [ra|]; [|exact Hr].
    destruct Hr as [r [Er Ew]]. exists r. split; [exact Er|].
    rewrite Ex; [exact Ew|]. apply nth_error_Some. congruence.
Qed.

(** The heap of a model holds it. *)
Lemma row_addresses_get (m : model_t) (base : nat) (context : str) :
  match dict_get str_eqb context (row_addresses base m) with
  | Some ra =>
      exists r, dict_get str_eqb context m = Some r
                /\ base <= ra
                /\ nth_error (row_objects m) (ra - base)
                   = Some (Weights (as_weights r))
  | None => dict_get str_eqb context m = None
  end.
Proof.
  revert base; induction m as [|[k r] m IH]; intros base; simpl;
    [reflexivity|].
  destruct (str_eqb context k).
  - exists r. rewrite Nat.sub_diag. auto.
  - specialize (IH (S base)).
    destruct (dict_get str_eqb context (row_addresses (S base) m))
      as [ra|]; [|exact IH].
    destruct IH as [r' [E [L N]]]. exists r'.
    split; [exact E|]. split; [lia|].
    replace (ra - base) with (S (ra - S base)) by lia. exact N.
Qed.

Lemma length_row_objects (m : model_t) : length (row_objects m) = length m.
Proof. induction m as [|[k r] m IH]; simpl; auto. Qed.

Lemma heap_of_holds (m : model_t) : holds (heap_of m) (length m) m.
Proof.
  exists (row_addresses 0 m). unfold heap_of. split.
  - rewrite nth_error_app2 by (rewrite length_row_objects; lia).
    rewrite length_row_objects, Nat.sub_diag. reflexivity.
  - intros context. pose proof (row_addresses_get m 0 context) as G.
    destruct (dict_get str_eqb context (row_addresses 0 m)) as [ra|];
      [|exact G].
    destruct G as [r [E [_ N]]]. exists r. split; [exact E|].
    rewrite Nat.sub_0_r in N.
    rewrite nth_error_app1; [exact N|].
    apply nth_error_Some. congruence.
Qed.

(** The outcome on objects is the result on values. *)
Definition same_end {A} (r : result A) (o : outcome A) : Prop :=
  match r, o with
  | Return x, Returned y _ => x = y
  | Raise e, Raised e' _ => e = e'
  | OutOfFuel, Exhausted _ => True
  | _, _ => False
  end.

(** The steps of [next_weights_at] on a heap whose object at [a] is a
    table. *)
Lemma next_weights_at_eq (h : heap) (a : nat) (table : dict str nat)
  distribution word :
  nth_error h a = Some (Table table) ->
  next_weights_at CL a distribution word h
  = match dict_get str_eqb (context_of CL word) table with
    | None => Raised KeyError h
    | Some ra =>
        match nth_error h ra with
        | Some (Weights d) =>
            if dict_mem char_eqb TERMINATOR d
            then match terminator_factor distribution word with
                 | Return factor =>
                     Returned (length h)
                       (h ++ [Weights
                                (dict_set char_eqb TERMINATOR
                                   (num_mul (get_weight TERMINATOR d) factor)
                                   d)])
                 | Raise e => Raised e (h ++ [Weights d])
                 | OutOfFuel => Exhausted (h ++ [Weights d])
                 end
            else Returned ra h
        | _ => Raised TypeError h
        end
    end.
Proof.
  intros Et. unfold next_weights_at, and_then, read_table. rewrite Et.
  destruct (dict_get str_eqb (context_of CL word) table) as [ra|];
    [|reflexivity].
  unfold read_weights.
  destruct (nth_error h ra) as [[d|d]|]; try reflexivity.
  destruct (dict_mem char_eqb TERMINATOR d); [|reflexivity].
  unfold allocate, lift, write.
  destruct (terminator_factor distribution word); try reflexivity.
  rewrite nth_error_app2, Nat.sub_diag by lia. simpl.
  rewrite replace_nth_last. reflexivity.
Qed.

Lemma next_weights_at_refines (h : heap) (a : nat) (m : model_t)
  distribution word :
  holds h a m ->
  match next_weights CL m distribution word with
  | Return weights =>
      exists wa h',
        next_weights_at CL a distribution word h = Returned wa h'
        /\ nth_error h' wa = Some (Weights weights)
  | Raise e =>
      exists h', next_weights_at CL a distribution word h = Raised e h'
  | OutOfFuel =>
      exists h', next_weights_at CL a distribution word h = Exhausted h'
  end.
Proof.
  intros [table [Et Hr]].
  rewrite next_weights_at_eq with (table := table) by exact Et.
  unfold next_weights. specialize (Hr (context_of CL word)).
  destruct (dict_get str_eqb (context_of CL word) table) as [ra|].
  - destruct Hr as [r [Er Ew]]. rewrite Er, Ew.
    destruct (dict_mem char_eqb TERMINATOR (as_weights r)).
    + destruct (terminator_factor distribution word) as [factor|e|];
        simpl; eauto.
      do 2 eexists. split; [reflexivity|].
      rewrite nth_error_app2, Nat.sub_diag by lia. reflexivity.
    + simpl. eauto.
  - rewrite Hr. eauto.
Qed.

Lemma generate_loop_at_refines fuel (h : heap) (a : nat) (m : model_t)
  distribution word g :
  holds h a m ->
  same_end (generate_loop CL fuel m distribution word g)
    (generate_loop_at CL fuel a distribution word g h).
Proof.
  revert word g h; induction fuel as [|fuel IH]; intros word g h Ho;
    [exact I|].
  rewrite generate_loop_unfold. cbn [generate_loop_at].
  unfold and_then at 1.
  destruct (last_item word) as [final|e|]; simpl; try reflexivity.
  destruct (negb (char_eqb final TERMINATOR)); [|reflexivity].
  pose proof (next_weights_at_refines h a m distribution word Ho) as Nw.
  pose proof (next_weights_at_keeps (length h) a distribution word) as K.
  apply keeps_extends in K.
  unfold and_then at 1.
  destruct (next_weights CL m distribution word) as [weights|e|]; simpl.
  - destruct Nw as [wa [h' [E Ew]]]. rewrite E in *. simpl in K.
    unfold and_then at 1. unfold read_weights. rewrite Ew.
    unfold and_then at 1.
    destruct (choices g (keys weights) (values weights))
      as [[c g1]|e|]; simpl; try reflexivity.
    apply IH. exact (holds_extends _ _ _ _ Ho K).
  - destruct Nw as [h' E]. rewrite E. reflexivity.
  - destruct Nw as [h' E]. rewrite E. exact I.
Qed.

Lemma generate_word_at_refines fuel (h : heap) (a : nat) (m : model_t)
  distribution g :
  holds h a m ->
  same_end (generate_word CL fuel m distribution g)
    (generate_word_at CL fuel a distribution g h).
Proof.
  intros Ho. unfold generate_word, generate_word_at, and_then.
  pose proof (generate_loop_at_refines fuel h a m distribution
                [INITIATOR] g Ho) as S.
  destruct (generate_loop CL fuel m distribution [INITIATOR] g)
    as [out|e|];
    destruct (generate_loop_at CL fuel a distribution [INITIATOR] g h)
      as [out' h'|e' h'|h'];
    simpl in *; try contradiction; subst; reflexivity.
Qed.
End ObjectFacts.

(** * The claims *)

(** ** Examples used below *)

(** A text with two words, and its parse under [FirstSeen]. *)
Definition two_words : str := py "abc bcd".
Definition abc_bcd : list str := [py "abc"; py "bcd"].

(** The text of the example of the specification, and its four words. *)
Definition cat_text : str := py "cat cats dog dogs".
Definition four_words : list str := [py "cat"; py "cats"; py "dog"; py "dogs"].

(** A hash seed that enumerates the words by decreasing first character. *)
Definition LargestFirst : HashSeed :=
  ByRank (fun w => (1114111 - nth 0 w 0)%N).

(** The random source after [n] draws. *)
Definition after (n : nat) (g : stream) : stream := fun k => g (n + k).

(** The distribution of [abc_bcd], and one that halves the terminator. *)
Definition flat : list (@number Binary64) :=
  [Int 0; Int 0; Int 0; Float 1%float].
Definition halving : list (@number Binary64) :=
  [Int 0; Int 0; Int 0; Float 0.5%float].

(** The distribution of the empty word and a word of one character. *)
Definition short : list (@number Binary64) :=
  [Int 0; Float 0x1.6a09e667f3bcdp-1%float].

(** The weights of the step after ["#bc"] under [halving]. *)
Definition halved : @weights_t Binary64 :=
  [(TERMINATOR, Float 0.5%float); (ord "d", Int 1)].

(** Five results of [random.random()]. *)
Definition five_draws : stream :=
  stream_of [0.25; 0.75; 0.75; 0.75; 0.25]%float.

(** ** C6 *)

(** C6: for every input text, every word that [parse_words] returns
    consists of letters, combining marks, apostrophes and hyphens only, is
    strictly longer than the context length, and occurs once in the
    returned list. *)
Theorem parse_words_clean {U : UnicodeData} {H : HashSeed} (CL : Z)
  (text : option str) (wordlist : list str) :
  parse_words CL text = Some wordlist ->
  NoDup wordlist
  /\ forall w, In w wordlist ->
       (forall c, In c w ->
          startswith_L (category c) = true \/ category c = Mn
          \/ c = APOSTROPHE \/ c = HYPHEN)
       /\ (CL < Z.of_nat (length w))%Z.
Proof.
  intros E. destruct text as [text|]; [|discriminate].
  apply parse_words_Some in E. destruct E as [Nd A].
  split; [exact Nd|]. intros w I. destruct (A w I) as [D L].
  split; [|exact L]. intros c Ic.
  rewrite Forall_forall in D. specialize (D c Ic).
  unfold desired, char_in in D. simpl in D.
  rewrite orb_false_r, !orb_true_iff, !char_eqb_eq in D.
  destruct D as [[D|D]|[D|D]]; auto.
  right; left. destruct (category c); try discriminate. reflexivity.
Qed.

Lemma parse_words_clean_witness :
  parse_words 2 (Some (py "It's a well-known fact -- no, a so-called FACT!"))
  = Some [py "it's"; py "well-known"; py "fact"; py "so-called"]
  /\ NoDup [py "it's"; py "well-known"; py "fact"; py "so-called"]
  /\ forall w,
       In w [py "it's"; py "well-known"; py "fact"; py "so-called"] ->
       (forall c, In c w ->
          startswith_L (category c) = true \/ category c = Mn
          \/ c = APOSTROPHE \/ c = HYPHEN)
       /\ (2 < Z.of_nat (length w))%Z.
Proof.
  split; [reflexivity|].
  apply (parse_words_clean 2
           (Some (py "It's a well-known fact -- no, a so-called FACT!"))).
  reflexivity.
Defined.

(** ** C2 *)

(** C2: when the model was built from a non-empty word list with the
    context length that [generate_word] uses, every in-progress word of
    the generation loop has its context among the keys of the model, and
    [generate_word] never raises [KeyError], whatever the distribution,
    the random source and the fuel. *)
Theorem generate_word_finds_context {F : FloatOps} {R : Random} (CL : Z)
  (wordlist : list str) :
  (0 <= CL)%Z ->
  wordlist <> [] ->
  (forall distribution word,
      in_progress CL (build_model CL wordlist) distribution word ->
      In (context_of CL word) (keys (build_model CL wordlist)))
  /\ (forall fuel distribution g,
         generate_word CL fuel (build_model CL wordlist) distribution g
         <> Raise KeyError).
Proof.
  intros P Ne. split.
  - intros distribution word IP. induction IP as [|word weights c IP IH W I N].
    + rewrite context_of_initiator by assumption.
      apply build_model_start; assumption.
    + apply build_model_next; try assumption.
      rewrite (next_weights_keys _ _ _ _ W) in I. exact I.
  - intros fuel distribution g E. unfold generate_word in E.
    apply bind_Raise in E. destruct E as [E|[out [_ E]]]; [|discriminate].
    revert E. apply generate_loop_not_KeyError; [assumption|].
    right. rewrite context_of_initiator by assumption.
    apply build_model_start; assumption.
Qed.

Lemma generate_word_finds_context_witness :
  generate_word 2 10 (build_model 2 abc_bcd)
    flat five_draws
  = Return (py "abcd", after 5 five_draws)
  /\ (forall distribution word,
         in_progress 2 (build_model 2 abc_bcd) distribution word ->
         In (context_of 2 word) (keys (build_model 2 abc_bcd)))
  /\ (forall fuel distribution g,
         generate_word 2 fuel (build_model 2 abc_bcd) distribution g
         <> Raise KeyError).
Proof.
  split; [vm_compute; reflexivity|].
  apply (generate_word_finds_context (F := Binary64) (R := CPython) 2 abc_bcd);
    [discriminate | discriminate].
Defined.

(** ** C10 *)

(** C10: with a context length that is not negative, a word that
    [generate_word] returns on the model built from what [parse_words]
    returned has at least one character and holds neither ['#'] nor ['$'];
    the loop produced exactly that word between one initiator and one
    terminator. *)
Theorem generated_word_plain {F : FloatOps} {R : Random} {U : UnicodeData}
  {H : HashSeed} (CL : Z) (text : option str) (wordlist : list str)
  (fuel : nat) (distribution : list number) (g g' : rng) (word : str) :
  (0 <= CL)%Z ->
  parse_words CL text = Some wordlist ->
  generate_word CL fuel (build_model CL wordlist) distribution g
  = Return (word, g') ->
  word <> []
  /\ ~ In INITIATOR word
  /\ ~ In TERMINATOR word
  /\ generate_loop CL fuel (build_model CL wordlist) distribution
       [INITIATOR] g
     = Return (INITIATOR :: word ++ [TERMINATOR], g').
Proof.
  intros P Ep E.
  apply (generate_word_Return P (parse_words_vocabulary text P Ep)) in E.
  destruct E as [El [Ne Pw]]. rewrite Forall_forall in Pw.
  repeat split; try assumption.
  - intros I. destruct (Pw _ I) as [N _]. congruence.
  - intros I. destruct (Pw _ I) as [_ N]. congruence.
Qed.

Lemma generated_word_plain_witness :
  parse_words 2 (Some two_words) = Some abc_bcd
  /\ generate_word 2 10 (build_model 2 abc_bcd)
       flat five_draws
     = Return (py "abcd", after 5 five_draws)
  /\ py "abcd" <> []
  /\ ~ In INITIATOR (py "abcd")
  /\ ~ In TERMINATOR (py "abcd")
  /\ generate_loop 2 10 (build_model 2 abc_bcd)
       flat [INITIATOR] five_draws
     = Return (INITIATOR :: py "abcd" ++ [TERMINATOR], after 5 five_draws).
Proof.
  assert (Ep : parse_words 2 (Some two_words) = Some abc_bcd)
    by reflexivity.
  assert (E : generate_word 2 10 (build_model 2 abc_bcd)
                flat five_draws
              = Return (py "abcd", after 5 five_draws))
    by (vm_compute; reflexivity).
  split; [exact Ep|]. split; [exact E|].
  apply (generated_word_plain (F := Binary64) (R := CPython) 2 (Some two_words) abc_bcd 10
           flat five_draws
           (after 5 five_draws) (py "abcd"));
    [discriminate | exact Ep | exact E].
Defined.

(** With a negative context length the two statements above fail: the
    slice [word[-CONTEXT_LENGTH:]] then drops leading characters, a context
    can be missing, and [parse_words] keeps the empty word. *)
Example negative_context_length_misses :
  generate_word (-2) 10 (build_model (-2) [py "ab"]) flat
    (alternate 0.75 0.25)
  = Raise KeyError.
Proof. vm_compute. reflexivity. Qed.

Example negative_context_length_empty_word :
  parse_words (-1) (Some (py "- a")) = Some [[]; py "a"]
  /\ length_distribution [[]; py "a"] = Return short
  /\ generate_word (-1) 10 (build_model (-1) [[]; py "a"]) short
       (constant 0.25)
     = Return ([], after 1 (constant 0.25)).
Proof. repeat split; vm_compute; reflexivity. Qed.

(** ** C5 *)

(** C5: in a step of the generation loop the weights handed to the sampler
    have the keys of the row of the model in the same order; a candidate
    other than the terminator keeps its count of the model, and the
    terminator, when it is a candidate, weighs its count times the
    distribution value at the index equal to the length of the in-progress
    word, or at the last index when that length is past the end. *)
Theorem terminator_weight {F : FloatOps} (CL : Z) (model : model_t)
  (distribution : list number) (word : str) (r : row)
  (weights : weights_t) :
  dict_get str_eqb (context_of CL word) model = Some r ->
  next_weights CL model distribution word = Return weights ->
  keys weights = keys r
  /\ (forall c, c <> TERMINATOR ->
        dict_get char_eqb c weights
        = option_map Int (dict_get char_eqb c r))
  /\ (In TERMINATOR (keys r) ->
        dict_get char_eqb TERMINATOR weights
        = Some (num_mul (Int (get_count TERMINATOR r))
                  (nth (Nat.min (length word) (length distribution - 1))
                     distribution (Int 0)))).
Proof.
  intros Er E. split; [|split].
  - rewrite (next_weights_keys _ _ _ _ E). unfold get_row. rewrite Er.
    reflexivity.
  - intros c N. unfold next_weights in E. rewrite Er in E.
    destruct (dict_mem char_eqb TERMINATOR (as_weights r)).
    + apply bind_Return in E. destruct E as [x [_ E]].
      inversion E; subst.
      rewrite (dict_get_set_other _ char_eqb_eq) by assumption.
      apply dict_get_as_weights.
    + inversion E; subst. apply dict_get_as_weights.
  - intros I. unfold next_weights in E. rewrite Er in E.
    apply (dict_mem_In_keys _ char_eqb_eq) in I.
    rewrite dict_mem_as_weights, I in E.
    apply bind_Return in E. destruct E as [x [Ex E]].
    inversion E; subst.
    rewrite (dict_get_set_same _ char_eqb_eq), get_weight_as_weights.
    rewrite (terminator_factor_Return _ _ Ex). reflexivity.
Qed.

Lemma terminator_weight_witness :
  dict_get str_eqb (context_of 2 (py "#bc")) (build_model 2 abc_bcd)
  = Some [(TERMINATOR, 1%Z); (ord "d", 1%Z)]
  /\ next_weights 2 (build_model 2 abc_bcd)
       halving (py "#bc")
     = Return halved
  /\ keys halved
     = keys [(TERMINATOR, 1%Z); (ord "d", 1%Z)]
  /\ (forall c, c <> TERMINATOR ->
        dict_get char_eqb c halved
        = option_map Int
            (dict_get char_eqb c [(TERMINATOR, 1%Z); (ord "d", 1%Z)]))
  /\ (In TERMINATOR (keys [(TERMINATOR, 1%Z); (ord "d", 1%Z)]) ->
        dict_get char_eqb TERMINATOR
          halved
        = Some (num_mul
                  (Int (get_count TERMINATOR
                          [(TERMINATOR, 1%Z); (ord "d", 1%Z)]))
                  (nth (Nat.min (length (py "#bc"))
                          (length halving - 1))
                     halving (Int 0)))).
Proof.
  assert (Er : dict_get str_eqb (context_of 2 (py "#bc"))
                 (build_model 2 abc_bcd)
               = Some [(TERMINATOR, 1%Z); (ord "d", 1%Z)])
    by reflexivity.
  assert (E : next_weights 2 (build_model 2 abc_bcd)
                halving (py "#bc")
              = Return halved)
    by (vm_compute; reflexivity).
  split; [exact Er|]. split; [exact E|].
  exact (terminator_weight (F := Binary64) 2 (build_model 2 abc_bcd)
           halving (py "#bc")
           [(TERMINATOR, 1%Z); (ord "d", 1%Z)]
           halved Er E).
Defined.

(** ** C1 *)

(** C1: for a count that is not negative, a list that [generate_words]
    returns has exactly [count] elements, no two of them equal and none of
    them in the parsed word list; for a count of zero the list is empty,
    the random source is left as it was, and the call returns without any
    fuel, that is without entering the sampling loop. *)
Theorem generate_words_count {F : FloatOps} {R : Random} {U : UnicodeData}
  {H : HashSeed} (CL : Z) (fuel : nat) (text : option str) (count : Z)
  (g g' : rng) (generated : list str) :
  (0 <= count)%Z ->
  returned (generate_words CL fuel text count g)
  = Return (Some generated, g') ->
  Z.of_nat (length generated) = count
  /\ NoDup generated
  /\ (forall wordlist, parse_words CL text = Some wordlist ->
        forall w, In w generated -> ~ In w wordlist)
  /\ (count = 0%Z ->
        generated = [] /\ g' = g
        /\ returned (generate_words CL 0 text count g)
           = Return (Some [], g)).
Proof.
  intros P E. unfold generate_words in *.
  destruct (parse_words CL text) as [wordlist|] eqn:Ep;
    [|simpl in E; discriminate].
  cbn [returned] in *.
  apply bind_Return in E. destruct E as [distribution [Ed E]].
  apply bind_Return in E. destruct E as [[out g1] [El E]].
  cbn [fst snd] in E. inversion E; subst; clear E.
  pose proof El as El'.
  apply sample_loop_Return in El;
    [|constructor | intros x [] | simpl; assumption].
  destruct El as [Nd [Nw Len]].
  repeat split; try assumption.
  - intros wl Ewl. inversion Ewl; subst. exact Nw.
  - subst count. destruct generated; [reflexivity | discriminate].
  - subst count. rewrite sample_loop_zero in El' by lia.
    inversion El'; reflexivity.
  - subst count. rewrite Ed. cbn [bind].
    rewrite sample_loop_zero by lia. reflexivity.
Qed.

Lemma generate_words_count_witness :
  returned (generate_words 2 10 (Some two_words) 1 five_draws)
  = Return (Some [py "abcd"], after 5 five_draws)
  /\ Z.of_nat (length [py "abcd"]) = 1%Z
  /\ NoDup [py "abcd"]
  /\ (forall wordlist, parse_words 2 (Some two_words) = Some wordlist ->
        forall w, In w [py "abcd"] -> ~ In w wordlist)
  /\ (1%Z = 0%Z ->
        [py "abcd"] = [] /\ after 5 five_draws = five_draws
        /\ returned (generate_words 2 0 (Some two_words) 1 five_draws)
           = Return (Some [], five_draws)).
Proof.
  assert (E : returned (generate_words 2 10 (Some two_words) 1 five_draws)
              = Return (Some [py "abcd"], after 5 five_draws))
    by (vm_compute; reflexivity).
  split; [exact E|].
  apply (generate_words_count (F := Binary64) (R := CPython) 2 10 (Some two_words) 1 five_draws
           (after 5 five_draws) [py "abcd"]); [discriminate | exact E].
Defined.

(** ** C3 *)

Lemma parse_cat_text (H : HashSeed) :
  parse_words (U := BasicLatin) (H := H) 2 (Some cat_text)
  = Some (list_set (keep_long 2 (list_set four_words))).
Proof. reflexivity. Qed.

Lemma In_parse_cat_text (H : HashSeed) (w : str) :
  In w (list_set (keep_long 2 (list_set four_words))) <-> In w four_words.
Proof.
  rewrite list_set_In, In_keep_long. split.
  - intros [w0 [I [-> _]]]. apply (proj1 (list_set_In _ _)) in I.
    simpl in I. destruct I as [<-|[<-|[<-|[<-|[]]]]]; simpl; tauto.
  - intros I. exists w. split; [apply list_set_In; exact I|].
    simpl in I. destruct I as [<-|[<-|[<-|[<-|[]]]]];
      split; (reflexivity || (simpl; lia)).
Qed.

(** The row of a context with a single follower, whatever the order of
    the words. *)
Lemma single_follower CL (wl wl0 : list str) (ctx : str) (a : char) :
  Permutation wl wl0 ->
  keys (get_row ctx (build_model CL wl0)) = [a] ->
  dict_get str_eqb ctx (build_model CL wl)
  = Some [(a, get_count a (get_row ctx (build_model CL wl0)))].
Proof.
  intros P K. destruct (build_model_Permutation CL P) as [_ [Sk Sc]].
  apply get_row_nonempty; [|discriminate].
  rewrite <- Sc. apply single_key_row.
  - apply build_model_wf.
  - intros c. rewrite Sk, K. simpl. intuition.
Qed.

(** C3, as amended: whatever the order in which the sets are enumerated,
    the text "cat cats dog dogs" with context length 2 parses to the four
    words cat, cats, dog and dogs, each once, and the model built from them
    maps the context "#c" to the single entry a: 2 (cat and cats both start
    that way) and the context "ca" to the single entry t: 2. *)
Theorem cat_cats_dog_dogs (H : HashSeed) :
  exists wordlist,
    parse_words (U := BasicLatin) (H := H) 2 (Some cat_text) = Some wordlist
    /\ NoDup wordlist
    /\ (forall w, In w wordlist <-> In w four_words)
    /\ dict_get str_eqb (py "#c") (build_model 2 wordlist)
       = Some [(ord "a", 2%Z)]
    /\ dict_get str_eqb (py "ca") (build_model 2 wordlist)
       = Some [(ord "t", 2%Z)].
Proof.
  exists (list_set (keep_long 2 (list_set four_words))).
  assert (P : Permutation (list_set (keep_long 2 (list_set four_words)))
                four_words).
  { apply NoDup_Permutation.
    - apply list_set_NoDup.
    - repeat constructor; simpl; intuition discriminate.
    - apply In_parse_cat_text. }
  split; [apply parse_cat_text|].
  split; [apply list_set_NoDup|].
  split; [apply In_parse_cat_text|].
  split.
  - apply (single_follower 2 _ four_words (py "#c") (ord "a") P).
    reflexivity.
  - apply (single_follower 2 _ four_words (py "ca") (ord "t") P).
    reflexivity.
Qed.

(** C3 as stated fails: under the tables of Basic Latin and the order of
    first occurrence, the model does not map "#c" to a: 1. *)
Lemma cat_cats_dog_dogs_counterexample :
  parse_words 2 (Some cat_text) = Some four_words
  /\ dict_get str_eqb (py "#c") (build_model 2 four_words)
     = Some [(ord "a", 2%Z)]
  /\ dict_get str_eqb (py "#c") (build_model 2 four_words)
     <> Some [(ord "a", 1%Z)].
Proof.
  split; [reflexivity|]. split; [reflexivity | discriminate].
Qed.

(** ** C4 *)

(** C4, as amended: on an absent text [parse_words] returns [None] and so
    does [generate_words], which writes no table and draws nothing; on the
    empty string [parse_words] returns the empty word list, not [None]. *)
Theorem no_text_no_words {F : FloatOps} {R : Random} {U : UnicodeData}
  {H : HashSeed} (CL : Z) (fuel : nat) (count : Z) (g : rng) :
  parse_words CL None = None
  /\ generate_words CL fuel None count g
     = {| model_json := None; returned := Return (None, g) |}
  /\ parse_words (U := BasicLatin) CL (Some []) = Some [].
Proof.
  repeat split. unfold parse_words. simpl.
  change (split []) with (@nil str).
  assert (E : list_set [] = []).
  { destruct (list_set []) as [|x l] eqn:E; [reflexivity|].
    assert (I : In x (list_set [])) by (rewrite E; left; reflexivity).
    apply (proj1 (list_set_In _ _)) in I. destruct I. }
  rewrite E. simpl. rewrite E. reflexivity.
Qed.

(** C4 as stated fails: on the empty string [parse_words] returns a list,
    and [generate_words] raises the [ValueError] of [max] on an empty
    sequence. *)
Lemma empty_text_counterexample :
  parse_words 2 (Some []) = Some []
  /\ parse_words 2 (Some []) <> None
  /\ returned (generate_words 2 10 (Some []) 3 five_draws)
     = Raise ValueError.
Proof.
  split; [reflexivity|]. split; [discriminate | reflexivity].
Qed.

(** ** C9 *)

(** C9, as amended: two runs over the same text, context length, count and
    random source write tables that hold the same contexts and the same
    count for every context and character, whatever the orders in which
    the two processes enumerate their sets; when the two orders are the
    same, the runs also return the same words and leave the same random
    source. *)
Theorem runs_agree {F : FloatOps} {R : Random} {U : UnicodeData}
  (H1 H2 : HashSeed) (CL : Z) (fuel : nat) (text : option str) (count : Z)
  (g : rng) (m1 m2 : model_t) :
  model_json (generate_words (H := H1) CL fuel text count g) = Some m1 ->
  model_json (generate_words (H := H2) CL fuel text count g) = Some m2 ->
  same_table m1 m2
  /\ ((forall xs, list_set (HashSeed := H1) xs
                  = list_set (HashSeed := H2) xs) ->
      generate_words (H := H1) CL fuel text count g
      = generate_words (H := H2) CL fuel text count g).
Proof.
  intros E1 E2. split.
  - unfold generate_words in E1, E2.
    destruct (parse_words (H := H1) CL text) as [l1|] eqn:P1;
      [|discriminate].
    destruct (parse_words (H := H2) CL text) as [l2|] eqn:P2;
      [|discriminate].
    simpl in E1, E2. inversion E1; subst. inversion E2; subst.
    apply build_model_Permutation.
    exact (parse_words_Permutation H1 H2 CL text P1 P2).
  - intros Ext. unfold generate_words, parse_words.
    destruct text as [text|]; [|reflexivity].
    rewrite !Ext. reflexivity.
Qed.

Lemma runs_agree_witness :
  model_json (generate_words (H := FirstSeen) 2 10 (Some two_words) 1
                five_draws)
  = Some (build_model 2 [py "abc"; py "bcd"])
  /\ model_json (generate_words (H := LargestFirst) 2 10 (Some two_words) 1
                   five_draws)
     = Some (build_model 2 [py "bcd"; py "abc"])
  /\ same_table (build_model 2 [py "abc"; py "bcd"])
       (build_model 2 [py "bcd"; py "abc"])
  /\ ((forall xs, list_set (HashSeed := FirstSeen) xs
                  = list_set (HashSeed := LargestFirst) xs) ->
      generate_words (H := FirstSeen) 2 10 (Some two_words) 1 five_draws
      = generate_words (H := LargestFirst) 2 10 (Some two_words) 1
          five_draws).
Proof.
  split; [reflexivity|]. split; [reflexivity|].
  apply (runs_agree (F := Binary64) (R := CPython) FirstSeen LargestFirst
           2 10 (Some two_words) 1 five_draws); reflexivity.
Defined.

(** C9 as stated fails: the same text, context length, count and random
    source give the word "abcd" when the sets are enumerated in the order
    of first occurrence and the word "bc" when they are enumerated by
    decreasing first character. *)
Lemma hash_order_counterexample :
  returned (generate_words (H := FirstSeen) 2 10 (Some two_words) 1
              five_draws)
  = Return (Some [py "abcd"], after 5 five_draws)
  /\ returned (generate_words (H := LargestFirst) 2 10 (Some two_words) 1
                 five_draws)
     = Return (Some [py "bc"], after 3 five_draws)
  /\ returned (generate_words (H := FirstSeen) 2 10 (Some two_words) 1
                 five_draws)
     <> returned (generate_words (H := LargestFirst) 2 10 (Some two_words) 1
                    five_draws).
Proof.
  assert (E1 : returned (generate_words (H := FirstSeen) 2 10
                           (Some two_words) 1 five_draws)
               = Return (Some [py "abcd"], after 5 five_draws))
    by (vm_compute; reflexivity).
  assert (E2 : returned (generate_words (H := LargestFirst) 2 10
                           (Some two_words) 1 five_draws)
               = Return (Some [py "bc"], after 3 five_draws))
    by (vm_compute; reflexivity).
  split; [exact E1|]. split; [exact E2|].
  rewrite E1, E2. intros E. inversion E.
Qed.

(** ** C7 *)



(** The distribution of the four words in binary64. *)
Example distribution_four_words :
  length_distribution four_words
  = Return [Int 0; Int 0; Int 0; Float 0x1.6a09e667f3bcdp-1%float;
            Float 0x1.6a09e667f3bcdp+0%float].
Proof. vm_compute. reflexivity. Qed.

(** ** C8 *)

(** C8: a call of [generate_word] leaves every object that existed before
    the call as it was, whether the call returns, raises or runs out of
    fuel: the table of the model and each of its rows hold the same keys
    and counts afterwards.  The boosted weights are written into objects
    made by [copy] during the call, and the call ends as [generate_word]
    on the value of the model does. *)
Theorem generate_word_keeps_model {F : FloatOps} {R : Random} (CL : Z)
  (fuel : nat) (h : heap) (a : nat) (m : model_t)
  (distribution : list number) (g : rng) :
  holds h a m ->
  extends h (final_heap (generate_word_at CL fuel a distribution g h))
  /\ holds (final_heap (generate_word_at CL fuel a distribution g h)) a m
  /\ same_end (generate_word CL fuel m distribution g)
       (generate_word_at CL fuel a distribution g h).
Proof.
  intros Ho.
  assert (Ex : extends h
                 (final_heap (generate_word_at CL fuel a distribution g h))).
  { apply keeps_extends, generate_word_at_keeps. }
  split; [exact Ex|]. split.
  - exact (holds_extends _ _ _ _ Ho Ex).
  - apply generate_word_at_refines. exact Ho.
Qed.

(** The two rows with a terminator that the run visits, as copied and
    boosted under [flat]. *)
Definition boosted_copies : list (@object Binary64) :=
  [Weights [(TERMINATOR, Float 1%float); (ord "d", Int 1)];
   Weights [(TERMINATOR, Float 1%float)]].

Lemma generate_word_keeps_model_witness :
  holds (heap_of (build_model 2 abc_bcd)) 6 (build_model 2 abc_bcd)
  /\ generate_word_at 2 10 6 flat five_draws
       (heap_of (build_model 2 abc_bcd))
     = Returned (py "abcd", after 5 five_draws)
         (heap_of (build_model 2 abc_bcd) ++ boosted_copies)
  /\ extends (heap_of (build_model 2 abc_bcd))
       (final_heap (generate_word_at 2 10 6 flat five_draws
                      (heap_of (build_model 2 abc_bcd))))
  /\ holds (final_heap (generate_word_at 2 10 6 flat five_draws
                          (heap_of (build_model 2 abc_bcd))))
       6 (build_model 2 abc_bcd)
  /\ same_end (generate_word 2 10 (build_model 2 abc_bcd) flat five_draws)
       (generate_word_at 2 10 6 flat five_draws
          (heap_of (build_model 2 abc_bcd))).
Proof.
  assert (Ho : holds (heap_of (build_model 2 abc_bcd)) 6
                 (build_model 2 abc_bcd))
    by exact (heap_of_holds (build_model 2 abc_bcd)).
  split; [exact Ho|]. split; [vm_compute; reflexivity|].
  exact (generate_word_keeps_model (F := Binary64) (R := CPython) 2 10
           (heap_of (build_model 2 abc_bcd)) 6 (build_model 2 abc_bcd)
           flat five_draws Ho).
Defined.

(** * Further properties of the functions *)

(** ** build_model *)

(** X1: the count that [build_model] stores for a context and a character
    is the number of positions, over the words bounded by the sentinels,
    at which the character follows the context; a character is a key of
    the row of a context exactly when that count is at least 1, a context
    is a key of the model exactly when its row is not empty, and no key
    occurs twice. *)
Theorem build_model_counts (CL : Z) (wordlist : list str) :
  NoDup (keys (build_model CL wordlist))
  /\ forall ctx,
       NoDup (keys (get_row ctx (build_model CL wordlist)))
       /\ (In ctx (keys (build_model CL wordlist))
           <-> get_row ctx (build_model CL wordlist) <> [])
       /\ forall c,
            get_count c (get_row ctx (build_model CL wordlist))
            = Z.of_nat (count_occ transition_eq_dec
                          (all_transitions CL wordlist) (ctx, c))
            /\ (In c (keys (get_row ctx (build_model CL wordlist)))
                <-> (1 <= get_count c
                             (get_row ctx (build_model CL wordlist)))%Z).
Proof.
  destruct (build_model_wf CL wordlist) as [Nk Nr].
  split; [exact Nk|]. intros ctx. split; [apply Nr|]. split.
  - rewrite build_model_keys. split.
    + intros [c I] E. apply build_model_row_keys in I.
      rewrite E in I. destruct I.
    + intros N.
      destruct (get_row ctx (build_model CL wordlist)) as [|[c v] r] eqn:E;
        [congruence|].
      exists c. apply build_model_row_keys. rewrite E. left. reflexivity.
  - intros c. split; [apply build_model_count|].
    rewrite build_model_count, build_model_row_keys.
    rewrite (count_occ_In transition_eq_dec). lia.
Qed.

(** X2: the model does not depend on the order of the word list: two
    lists with the same words, each as often, give the same contexts, the
    same characters after each context and the same counts. *)
Theorem build_model_any_order (CL : Z) (l1 l2 : list str) :
  Permutation l1 l2 ->
  same_table (build_model CL l1) (build_model CL l2).
Proof. apply build_model_Permutation. Qed.

Lemma build_model_any_order_witness :
  Permutation [py "abc"; py "bcd"] [py "bcd"; py "abc"]
  /\ same_table (build_model 2 [py "abc"; py "bcd"])
       (build_model 2 [py "bcd"; py "abc"]).
Proof.
  split; [apply perm_swap|].
  apply (build_model_any_order 2 [py "abc"; py "bcd"] [py "bcd"; py "abc"]).
  apply perm_swap.
Defined.

(** X3: with a positive context length every context of the model has at
    least one character and at most [CONTEXT_LENGTH], and a context with
    fewer starts with the initiator: it is a whole prefix of a bounded
    word. *)
Theorem context_keys_shape (CL : Z) (wordlist : list str) (ctx : str) :
  (0 < CL)%Z ->
  In ctx (keys (build_model CL wordlist)) ->
  1 <= length ctx
  /\ (Z.of_nat (length ctx) <= CL)%Z
  /\ ((Z.of_nat (length ctx) < CL)%Z ->
      exists w i, In w wordlist /\ 1 <= i < length (bounded w)
                  /\ ctx = slice_to i (bounded w)
                  /\ nth 0 ctx 0%N = INITIATOR).
Proof.
  intros P I. apply build_model_keys in I. destruct I as [c I].
  apply in_all_transitions in I. destruct I as [w [i [Iw [B [-> _]]]]].
  rewrite context_of_pos by assumption.
  assert (Li : length (slice_to i (bounded w)) = i).
  { unfold slice_to. rewrite length_firstn. lia. }
  rewrite length_rev, length_firstn, length_rev, Li.
  split; [lia|]. split; [lia|].
  intros Lt. exists w, i. split; [exact Iw|]. split; [exact B|].
  assert (E : rev (firstn (Z.to_nat CL) (rev (slice_to i (bounded w))))
              = slice_to i (bounded w)).
  { rewrite firstn_all2 by (rewrite length_rev; lia).
    apply rev_involutive. }
  rewrite E. split; [reflexivity|].
  unfold slice_to, bounded. destruct i; [lia | reflexivity].
Qed.

Lemma context_keys_shape_witness :
  (0 < 3)%Z
  /\ In (py "#a") (keys (build_model 3 abc_bcd))
  /\ 1 <= length (py "#a")
  /\ (Z.of_nat (length (py "#a")) <= 3)%Z
  /\ ((Z.of_nat (length (py "#a")) < 3)%Z ->
      exists w i, In w abc_bcd /\ 1 <= i < length (bounded w)
                  /\ py "#a" = slice_to i (bounded w)
                  /\ nth 0 (py "#a") 0%N = INITIATOR).
Proof.
  split; [reflexivity|].
  assert (I : In (py "#a") (keys (build_model 3 abc_bcd)))
    by (vm_compute; tauto).
  split; [exact I|].
  apply (context_keys_shape 3 abc_bcd (py "#a")); [reflexivity | exact I].
Defined.

(** ** length_distribution *)

Lemma get_length_set (k n : nat) (v : Z) (d : histogram) :
  get_length n (dict_set Nat.eqb k v d)
  = if Nat.eq_dec n k then v else get_length n d.
Proof.
  unfold get_length. destruct (Nat.eq_dec n k) as [->|N].
  - rewrite (dict_get_set_same _ nat_eqb_eq). reflexivity.
  - rewrite (dict_get_set_other _ nat_eqb_eq) by assumption. reflexivity.
Qed.

(** The words of a list that have [n] characters. *)
Definition length_count (wordlist : list str) (n : nat) : Z :=
  Z.of_nat (count_occ Nat.eq_dec (map (@length char) wordlist) n).

(** The length of the longest word. *)
Definition longest (wordlist : list str) : nat :=
  list_max (map (@length char) wordlist).

Lemma count_lengths_get (wordlist : list str) (d : histogram) (n : nat) :
  get_length n (fold_left count_length wordlist d)
  = (get_length n d + length_count wordlist n)%Z.
Proof.
  unfold length_count.
  revert d; induction wordlist as [|w wl IH]; intros d; simpl; [lia|].
  rewrite IH, count_length_spec, get_length_set.
  destruct (Nat.eq_dec (length w) n) as [E|N];
    destruct (Nat.eq_dec n (length w)) as [E'|N']; try congruence; try lia.
  subst n. lia.
Qed.

Lemma count_lengths_keys (wordlist : list str) (d : histogram) (n : nat) :
  In n (keys (fold_left count_length wordlist d))
  <-> In n (keys d) \/ In n (map (@length char) wordlist).
Proof.
  revert d; induction wordlist as [|w wl IH]; intros d; simpl; [tauto|].
  rewrite IH, count_length_spec, (keys_dict_set_In _ nat_eqb_eq).
  intuition.
Qed.

Lemma count_lengths_NoDup (wordlist : list str) (d : histogram) :
  NoDup (keys d) -> NoDup (keys (fold_left count_length wordlist d)).
Proof.
  revert d; induction wordlist as [|w wl IH]; intros d N; simpl;
    [assumption|].
  apply IH. rewrite count_length_spec.
  apply (keys_dict_set_NoDup _ nat_eqb_eq). assumption.
Qed.

Lemma In_dict_get {K V} (eqb : K -> K -> bool) (k : K) (v : V)
  (d : dict K V) :
  (forall a b, eqb a b = true <-> a = b) ->
  NoDup (keys d) -> In (k, v) d -> dict_get eqb k d = Some v.
Proof.
  intros Eq N I. induction d as [|[k0 v0] d IH]; simpl in *; [tauto|].
  inversion N; subst. destruct I as [E|I].
  - inversion E; subst.
    rewrite (proj2 (Eq k k) eq_refl). reflexivity.
  - destruct (eqb k k0) eqn:E; [|auto].
    apply Eq in E. subst k0. exfalso. apply H1.
    change k with (fst (k, v)). apply in_map. exact I.
Qed.

Lemma dict_get_Permutation {K V} (eqb : K -> K -> bool) (k : K)
  (d d' : dict K V) :
  (forall a b, eqb a b = true <-> a = b) ->
  NoDup (keys d) -> Permutation d d' ->
  dict_get eqb k d = dict_get eqb k d'.
Proof.
  intros Eq N P.
  assert (N' : NoDup (keys d')).
  { eapply Permutation_NoDup; [|exact N]. apply Permutation_map. exact P. }
  destruct (dict_get eqb k d) as [v|] eqn:E.
  - symmetry. apply In_dict_get; try assumption.
    eapply Permutation_in; [exact P|].
    apply (dict_get_In _ Eq). exact E.
  - destruct (dict_get eqb k d') as [v'|] eqn:E'; [|reflexivity].
    apply (dict_get_In _ Eq) in E'.
    apply Permutation_sym in P. eapply Permutation_in in E'; [|exact P].
    apply (In_dict_get eqb k v' d Eq N) in E'. congruence.
Qed.

Lemma py_sum_acc (l : list Z) (a : Z) :
  fold_left Z.add l a = (a + py_sum l)%Z.
Proof.
  unfold py_sum. revert a; induction l as [|x l IH]; intros a; simpl; [lia|].
  rewrite IH, (IH x). lia.
Qed.

Lemma py_sum_cons (x : Z) (l : list Z) : py_sum (x :: l) = (x + py_sum l)%Z.
Proof. unfold py_sum at 1. simpl. apply py_sum_acc. Qed.

Lemma py_sum_Permutation (l l' : list Z) :
  Permutation l l' -> py_sum l = py_sum l'.
Proof.
  intros P; induction P; rewrite ?py_sum_cons; lia.
Qed.

Lemma py_sum_set (k : nat) (v : Z) (d : histogram) :
  py_sum (values (dict_set Nat.eqb k v d))
  = (py_sum (values d) + v - get_length k d)%Z.
Proof.
  unfold get_length. induction d as [|[k0 v0] d IH]; simpl.
  - rewrite py_sum_cons. unfold py_sum. simpl. lia.
  - destruct (k =? k0) eqn:E; simpl; rewrite !py_sum_cons.
    + lia.
    + rewrite IH. lia.
Qed.

Lemma count_lengths_sum (wordlist : list str) (d : histogram) :
  py_sum (values (fold_left count_length wordlist d))
  = (py_sum (values d) + Z.of_nat (length wordlist))%Z.
Proof.
  revert d; induction wordlist as [|w wl IH]; intros d; simpl length;
    [simpl; lia|].
  simpl fold_left. rewrite IH, count_length_spec, py_sum_set. lia.
Qed.

Lemma fold_left_max (l : list nat) (a : nat) :
  fold_left Nat.max l a = Nat.max a (list_max l).
Proof.
  revert a; induction l as [|x l IH]; intros a; simpl; [lia|].
  rewrite IH. lia.
Qed.

Lemma list_max_incl (l1 l2 : list nat) :
  (forall x, In x l1 -> In x l2) -> list_max l1 <= list_max l2.
Proof.
  intros I. apply list_max_le. apply Forall_forall. intros x Ix.
  assert (A : Forall (fun k => k <= list_max l2) l2)
    by (apply list_max_le; lia).
  rewrite Forall_forall in A. apply A, I, Ix.
Qed.

(** The histogram, once sorted, answers the number of words of each
    length; its values add up to the number of words and its largest key
    is the length of the longest word. *)
Lemma sorted_histogram (wordlist : list str) :
  let d := sorted_items (fold_left count_length wordlist []) in
  (forall n, get_length n d = length_count wordlist n)
  /\ (forall n, dict_mem Nat.eqb n d = (0 <? length_count wordlist n)%Z)
  /\ py_sum (values d) = Z.of_nat (length wordlist)
  /\ (wordlist <> [] -> py_max (keys d) = Return (longest wordlist)).
Proof.
  intros d.
  pose proof (sorted_items_Permutation
                (fold_left count_length wordlist [])) as P.
  apply Permutation_sym in P.
  assert (N0 : NoDup (keys (fold_left count_length wordlist [])))
    by (apply count_lengths_NoDup; constructor).
  assert (G : forall n, get_length n d = length_count wordlist n).
  { intros n. unfold get_length, d.
    rewrite <- (dict_get_Permutation Nat.eqb n _ _ nat_eqb_eq N0 P).
    pose proof (count_lengths_get wordlist [] n) as E.
    unfold get_length in E. simpl in E. exact E. }
  assert (K : forall n, In n (keys d) <-> In n (map (@length char) wordlist)).
  { intros n. unfold d. split; intros I.
    - eapply Permutation_in in I;
        [|apply Permutation_map, Permutation_sym, P].
      apply count_lengths_keys in I. simpl in I. tauto.
    - eapply Permutation_in; [apply Permutation_map, P|].
      apply count_lengths_keys. right. exact I. }
  split; [exact G|]. split; [|split].
  - intros n. unfold length_count.
    destruct (dict_mem Nat.eqb n d) eqn:M.
    + apply (dict_mem_In_keys _ nat_eqb_eq) in M. apply K in M.
      apply (count_occ_In Nat.eq_dec) in M. symmetry. apply Z.ltb_lt. lia.
    + symmetry. apply Z.ltb_ge.
      assert (C : count_occ Nat.eq_dec (map (@length char) wordlist) n = 0).
      { apply count_occ_not_In. intros I. apply K in I.
        apply (dict_mem_In_keys _ nat_eqb_eq) in I. congruence. }
      lia.
  - unfold d, values.
    rewrite <- (py_sum_Permutation _ _ (Permutation_map snd P)).
    pose proof (count_lengths_sum wordlist []) as E.
    unfold values in E. rewrite E. unfold py_sum. simpl. lia.
  - intros Ne. unfold longest.
    assert (L : list_max (keys d) = list_max (map (@length char) wordlist)).
    { apply Nat.le_antisymm; apply list_max_incl; intros x; apply K. }
    destruct (keys d) as [|k ks] eqn:Ek.
    + destruct wordlist as [|w wl]; [congruence|].
      exfalso. apply (proj2 (K (length w))). left. reflexivity.
    + simpl py_max. rewrite fold_left_max, <- L. reflexivity.
Qed.

Section ClosedForm.
Context {F : FloatOps}.

(** One step of the running sum: the value after the length [i]. *)
Definition add_mass (wordlist : list str) (value : number) (i : nat)
  : number :=
  if (0 <? length_count wordlist i)%Z
  then num_add value
         (Float (fpow_half
                   (fdiv (float_of_int (length_count wordlist i))
                      (float_of_int (Z.of_nat (length wordlist))))))
  else value.

Fixpoint running (wordlist : list str) (value : number) (indices : list nat)
  : list number :=
  match indices with
  | [] => []
  | i :: rest =>
      add_mass wordlist value i
      :: running wordlist (add_mass wordlist value i) rest
  end.

(** The sequence of [length_distribution] said at once: 0, then for each
    length from 1 to the longest the sum so far, to which the square root
    of the share of the words of that length is added when there are
    any. *)
Definition cumulative_sums (wordlist : list str) : list number :=
  Int 0 :: running wordlist (Int 0) (seq 1 (longest wordlist)).

Lemma for_each_accumulate (wordlist : list str) (indices : list nat)
  (pre : list number) (v : number) :
  wordlist <> [] ->
  for_each
    (accumulate (sorted_items (fold_left count_length wordlist [])))
    indices (pre ++ [v])
  = Return ((pre ++ [v]) ++ running wordlist v indices).
Proof.
  intros Ne.
  destruct (sorted_histogram wordlist) as [G [M [S _]]].
  revert pre v; induction indices as [|i indices IH]; intros pre v; simpl.
  - rewrite app_nil_r. reflexivity.
  - unfold accumulate at 1. rewrite last_item_snoc. cbn [bind].
    rewrite M, G, S. unfold add_mass.
    destruct (0 <? length_count wordlist i)%Z.
    + unfold int_true_div.
      destruct (Z.eqb_spec (Z.of_nat (length wordlist)) 0) as [E|_].
      { destruct wordlist; [congruence | simpl in E; lia]. }
      cbn [bind pow_half to_float].
      rewrite IH, <- app_assoc. reflexivity.
    + cbn [bind]. rewrite IH, <- app_assoc. reflexivity.
Qed.

Lemma length_running (wordlist : list str) (v : number)
  (indices : list nat) :
  length (running wordlist v indices) = length indices.
Proof.
  revert v; induction indices as [|i indices IH]; intros v; simpl; auto.
Qed.

(** While no word has the lengths met, the running sum stays where it
    started. *)
Lemma running_flat (wordlist : list str) (v : number) (n a k : nat) :
  k < n ->
  (forall j, a <= j <= a + k -> length_count wordlist j = 0%Z) ->
  nth_error (running wordlist v (seq a n)) k = Some v.
Proof.
  revert a k; induction n as [|n IH]; intros a k L Z0; [lia|].
  simpl. assert (E : add_mass wordlist v a = v).
  { unfold add_mass. rewrite (Z0 a) by lia. reflexivity. }
  rewrite E. destruct k as [|k]; [reflexivity|].
  simpl. apply IH; [lia|]. intros j B. apply Z0. lia.
Qed.
End ClosedForm.

Lemma length_count_Permutation (l1 l2 : list str) (n : nat) :
  Permutation l1 l2 -> length_count l1 n = length_count l2 n.
Proof.
  intros P. unfold length_count. f_equal.
  apply Permutation_count_occ, Permutation_map. exact P.
Qed.

Lemma longest_Permutation (l1 l2 : list str) :
  Permutation l1 l2 -> longest l1 = longest l2.
Proof.
  intros P. unfold longest.
  apply Nat.le_antisymm; apply list_max_incl; intros x I;
    eapply Permutation_in; try exact I; apply Permutation_map;
    [exact P | apply Permutation_sym; exact P].
Qed.

Lemma length_count_zero (wordlist : list str) (n : nat) :
  (forall w, In w wordlist -> n < length w) -> length_count wordlist n = 0%Z.
Proof.
  intros Sh. unfold length_count.
  assert (C : count_occ Nat.eq_dec (map (@length char) wordlist) n = 0).
  { apply count_occ_not_In. intros I. apply in_map_iff in I.
    destruct I as [w [E I]]. specialize (Sh w I). lia. }
  lia.
Qed.

Lemma longest_ge (wordlist : list str) (w : str) :
  In w wordlist -> length w <= longest wordlist.
Proof.
  intros I. unfold longest.
  assert (A : Forall (fun k => k <= list_max (map (@length char) wordlist))
                (map (@length char) wordlist))
    by (apply list_max_le; lia).
  rewrite Forall_forall in A. apply A, in_map, I.
Qed.

(** [length_distribution] in closed form, for the proofs below. *)
Lemma length_distribution_closed_form_aux {F : FloatOps}
  (wordlist : list str) :
  length_distribution wordlist
  = match wordlist with
    | [] => Raise ValueError
    | _ => Return (cumulative_sums wordlist)
    end.
Proof.
  destruct wordlist as [|w wl]; [reflexivity|].
  assert (Ne : w :: wl <> []) by discriminate.
  destruct (sorted_histogram (w :: wl)) as [_ [_ [_ Mx]]].
  unfold length_distribution. rewrite (Mx Ne). cbn [bind].
  unfold range. replace (longest (w :: wl) + 1 - 1) with (longest (w :: wl))
    by lia.
  exact (for_each_accumulate (w :: wl) (seq 1 (longest (w :: wl))) []
           (Int 0) Ne).
Qed.

(** X4: on the empty word list [length_distribution] raises the
    [ValueError] of [max]; on any other it returns [cumulative_sums]: 0,
    then for each length from 1 to that of the longest word the sum so
    far, increased by the square root of (words of that length / number of
    words) when some word has that length. *)
Theorem length_distribution_closed_form {F : FloatOps}
  (wordlist : list str) :
  length_distribution wordlist
  = match wordlist with
    | [] => Raise ValueError
    | _ => Return (cumulative_sums wordlist)
    end.
Proof. apply length_distribution_closed_form_aux. Qed.

(** X5: the sequence that [length_distribution] returns has one entry
    more than the longest word has characters, so the lookup of
    [generate_word], [distribution[len(word)]] or [distribution[-1]], never
    raises: it answers the entry at [len(word)], or the last one, that of
    the longest word, past the end. *)
Theorem distribution_lookup_in_bounds {F : FloatOps} (wordlist : list str)
  (distribution : list number) :
  length_distribution wordlist = Return distribution ->
  length distribution = S (longest wordlist)
  /\ forall word,
       terminator_factor distribution word
       = Return (nth (Nat.min (length word) (longest wordlist))
                   distribution (Int 0)).
Proof.
  rewrite length_distribution_closed_form_aux.
  destruct wordlist as [|w wl]; [discriminate|].
  intros E. inversion E; subst distribution; clear E.
  assert (L : length (cumulative_sums (w :: wl)) = S (longest (w :: wl))).
  { unfold cumulative_sums. simpl length.
    rewrite length_running, length_seq. reflexivity. }
  split; [exact L|]. intros word. unfold terminator_factor. rewrite L.
  destruct (Nat.ltb_spec (length word) (S (longest (w :: wl)))) as [Lt|Ge].
  - unfold item.
    destruct (nth_error (cumulative_sums (w :: wl)) (length word)) eqn:N.
    + rewrite Nat.min_l by lia. f_equal. symmetry.
      apply nth_error_nth. exact N.
    + apply nth_error_None in N. lia.
  - destruct (last_item (cumulative_sums (w :: wl))) as [x|e|] eqn:La.
    + apply (last_item_Return _ (Int 0)) in La. destruct La as [_ <-].
      rewrite L. do 2 f_equal. lia.
    + unfold last_item in La. destruct (rev _) eqn:Er; [|discriminate].
      apply (f_equal (@length number)) in Er.
      rewrite length_rev, L in Er. discriminate.
    + unfold last_item in La. destruct (rev _); discriminate.
Qed.

Lemma distribution_lookup_in_bounds_witness :
  length_distribution abc_bcd = Return flat
  /\ length flat = S (longest abc_bcd)
  /\ forall word,
       terminator_factor flat word
       = Return (nth (Nat.min (length word) (longest abc_bcd)) flat (Int 0)).
Proof.
  assert (E : length_distribution abc_bcd = Return flat)
    by (vm_compute; reflexivity).
  split; [exact E|].
  exact (distribution_lookup_in_bounds (F := Binary64) abc_bcd flat E).
Defined.

Lemma running_Permutation {F : FloatOps} (l1 l2 : list str) (v : number)
  (indices : list nat) :
  Permutation l1 l2 -> running l1 v indices = running l2 v indices.
Proof.
  intros P.
  assert (A : forall x i, add_mass l1 x i = add_mass l2 x i).
  { intros x i. unfold add_mass.
    rewrite (length_count_Permutation l1 l2 i P).
    rewrite (Permutation_length P). reflexivity. }
  revert v; induction indices as [|i indices IH]; intros v; simpl;
    [reflexivity|].
  rewrite A, IH. reflexivity.
Qed.

(** X6: [length_distribution] does not depend on the order of the word
    list: two lists with the same words, each as often, give the same
    result, number for number. *)
Theorem length_distribution_any_order {F : FloatOps} (l1 l2 : list str) :
  Permutation l1 l2 ->
  length_distribution l1 = length_distribution l2.
Proof.
  intros P. rewrite !length_distribution_closed_form_aux.
  destruct l1 as [|w1 l1]; destruct l2 as [|w2 l2]; try reflexivity.
  - apply Permutation_nil in P. discriminate.
  - apply Permutation_sym, Permutation_nil in P. discriminate.
  - unfold cumulative_sums.
    rewrite (longest_Permutation _ _ P).
    rewrite (running_Permutation _ _ (Int 0) _ P). reflexivity.
Qed.

Lemma length_distribution_any_order_witness :
  Permutation four_words (rev four_words)
  /\ length_distribution four_words = length_distribution (rev four_words).
Proof.
  split; [apply Permutation_rev|].
  apply (length_distribution_any_order (F := Binary64) four_words
           (rev four_words)).
  apply Permutation_rev.
Defined.

(** X7: while the in-progress word, initiator included, is shorter than
    every word of the list, the distribution of that list gives the
    terminator the weight 0, whatever its count in the model. *)
Theorem terminator_weight_zero_when_short {F : FloatOps} (CL : Z)
  (model : model_t) (wordlist : list str) (distribution : list number)
  (word : str) (weights : weights_t) :
  length_distribution wordlist = Return distribution ->
  (forall w, In w wordlist -> length word < length w) ->
  next_weights CL model distribution word = Return weights ->
  In TERMINATOR (keys weights) ->
  dict_get char_eqb TERMINATOR weights = Some (Int 0).
Proof.
  intros Ed Sh En It.
  assert (Z0 : nth (length word) distribution (Int 0) = Int 0
               /\ length word < length distribution).
  { rewrite length_distribution_closed_form_aux in Ed.
    destruct wordlist as [|w wl]; [discriminate|].
    inversion Ed; subst distribution; clear Ed.
    pose proof (longest_ge (w :: wl) w (or_introl eq_refl)) as Lw.
    pose proof (Sh w (or_introl eq_refl)) as Sw.
    unfold cumulative_sums. simpl length.
    rewrite length_running, length_seq. split; [|lia].
    destruct (length word) as [|k] eqn:Ek; [reflexivity|].
    simpl. apply nth_error_nth. apply running_flat; [lia|].
    intros j B. apply length_count_zero. intros w' Iw'.
    specialize (Sh w' Iw'). lia. }
  destruct Z0 as [Z0 Lt].
  unfold next_weights in En.
  destruct (dict_get str_eqb (context_of CL word) model) as [r|];
    [|discriminate].
  destruct (dict_mem char_eqb TERMINATOR (as_weights r)) eqn:M.
  - apply bind_Return in En. destruct En as [x [Ex En]].
    inversion En; subst weights; clear En.
    apply terminator_factor_Return in Ex.
    rewrite Nat.min_l in Ex by lia. rewrite Z0 in Ex. subst x.
    rewrite (dict_get_set_same _ char_eqb_eq), get_weight_as_weights.
    simpl. rewrite Z.mul_0_r. reflexivity.
  - inversion En; subst weights.
    apply (dict_mem_In_keys _ char_eqb_eq) in It. congruence.
Qed.

Lemma terminator_weight_zero_when_short_witness :
  length_distribution [py "xyab"; py "abxy"]
  = Return [Int 0; Int 0; Int 0; Int 0; Float 1%float]
  /\ (forall w, In w [py "xyab"; py "abxy"] ->
        length (py "#xy") < length w)
  /\ next_weights 2 (build_model 2 [py "xyab"; py "abxy"])
       [Int 0; Int 0; Int 0; Int 0; Float 1%float] (py "#xy")
     = Return [(ord "a", Int 1); (TERMINATOR, Int 0)]
  /\ In TERMINATOR (keys [(ord "a", @Int Binary64 1); (TERMINATOR, Int 0)])
  /\ dict_get char_eqb TERMINATOR
       [(ord "a", @Int Binary64 1); (TERMINATOR, Int 0)]
     = Some (Int 0).
Proof.
  assert (Ed : length_distribution [py "xyab"; py "abxy"]
               = Return [Int 0; Int 0; Int 0; Int 0; Float 1%float])
    by (vm_compute; reflexivity).
  assert (Sh : forall w, In w [py "xyab"; py "abxy"] ->
                 length (py "#xy") < length w).
  { intros w [<-|[<-|[]]]; simpl; lia. }
  assert (En : next_weights 2 (build_model 2 [py "xyab"; py "abxy"])
                 [Int 0; Int 0; Int 0; Int 0; Float 1%float] (py "#xy")
               = Return [(ord "a", Int 1); (TERMINATOR, Int 0)])
    by (vm_compute; reflexivity).
  assert (It : In TERMINATOR
                 (keys [(ord "a", @Int Binary64 1); (TERMINATOR, Int 0)]))
    by (right; left; reflexivity).
  split; [exact Ed|]. split; [exact Sh|]. split; [exact En|].
  split; [exact It|].
  exact (terminator_weight_zero_when_short (F := Binary64) 2
           (build_model 2 [py "xyab"; py "abxy"]) [py "xyab"; py "abxy"]
           [Int 0; Int 0; Int 0; Int 0; Float 1%float] (py "#xy")
           [(ord "a", Int 1); (TERMINATOR, Int 0)] Ed Sh En It).
Defined.

(** ** generate_word *)

(** The transitions of a word, one per character after the first, are
    all among those counted in the word list. *)
Definition observed (CL : Z) (wordlist : list str) (word : str) : Prop :=
  forall k, 1 <= k < length word ->
    In (context_of CL (slice_to k word), nth k word 0%N)
      (all_transitions CL wordlist).

Lemma observed_snoc (CL : Z) (wordlist : list str) (word : str) (c : char) :
  observed CL wordlist word ->
  In (context_of CL word, c) (all_transitions CL wordlist) ->
  observed CL wordlist (word ++ [c]).
Proof.
  intros O I k B. rewrite length_app in B. simpl in B. unfold slice_to.
  destruct (Nat.eq_dec k (length word)) as [->|N].
  - rewrite firstn_app, Nat.sub_diag, firstn_all. simpl.
    rewrite app_nil_r, nth_middle. exact I.
  - rewrite firstn_app. replace (k - length word) with 0 by lia.
    simpl. rewrite app_nil_r, app_nth1 by lia. apply O. lia.
Qed.

Lemma generate_loop_observed {F : FloatOps} {R : Random} (CL : Z)
  (wordlist : list str) (fuel : nat) (distribution : list number)
  (word : str) (g : rng) (word' : str) (g' : rng) :
  generate_loop CL fuel (build_model CL wordlist) distribution word g
  = Return (word', g') ->
  observed CL wordlist word -> observed CL wordlist word'.
Proof.
  revert word g; induction fuel as [|fuel IH]; intros word g E O;
    [discriminate|].
  rewrite generate_loop_unfold in E.
  apply bind_Return in E. destruct E as [final [L E]].
  destruct (negb (char_eqb final TERMINATOR)).
  - apply bind_Return in E. destruct E as [weights [W E]].
    apply bind_Return in E. destruct E as [[c g1] [D E]].
    cbn [fst snd] in E. apply choices_In in D.
    rewrite (next_weights_keys _ _ _ _ W) in D.
    apply build_model_row_keys in D.
    apply IH in E; [exact E|]. apply observed_snoc; assumption.
  - inversion E; subst. exact O.
Qed.

(** X8: a word that [generate_word] returns follows the model: bounded by
    the sentinels, each of its characters, and the final terminator, comes
    after its context with a count of at least 1 in the model, that is,
    after the same context in some word of the list. *)
Theorem generated_word_follows_model {F : FloatOps} {R : Random}
  {U : UnicodeData} {H : HashSeed} (CL : Z) (text : option str)
  (wordlist : list str) (fuel : nat) (distribution : list number)
  (g g' : rng) (word : str) :
  (0 <= CL)%Z ->
  parse_words CL text = Some wordlist ->
  generate_word CL fuel (build_model CL wordlist) distribution g
  = Return (word, g') ->
  forall i, 1 <= i < length (bounded word) ->
    (1 <= get_count (nth i (bounded word) 0%N)
            (get_row (context_of CL (slice_to i (bounded word)))
               (build_model CL wordlist)))%Z.
Proof.
  intros P Ep E i B.
  destruct (generate_word_Return P (parse_words_vocabulary text P Ep)
              fuel distribution g E) as [El _].
  assert (O : observed CL wordlist (bounded word)).
  { apply (generate_loop_observed CL wordlist fuel distribution
             [INITIATOR] g _ g' El).
    intros k Bk. simpl in Bk. lia. }
  rewrite build_model_count.
  specialize (O i B). apply (count_occ_In transition_eq_dec) in O. lia.
Qed.

Lemma generated_word_follows_model_witness :
  (0 <= 2)%Z
  /\ parse_words 2 (Some two_words) = Some abc_bcd
  /\ generate_word 2 10 (build_model 2 abc_bcd) flat five_draws
     = Return (py "abcd", after 5 five_draws)
  /\ forall i, 1 <= i < length (bounded (py "abcd")) ->
       (1 <= get_count (nth i (bounded (py "abcd")) 0%N)
               (get_row (context_of 2 (slice_to i (bounded (py "abcd"))))
                  (build_model 2 abc_bcd)))%Z.
Proof.
  assert (P : (0 <= 2)%Z) by discriminate.
  assert (Ep : parse_words 2 (Some two_words) = Some abc_bcd)
    by reflexivity.
  assert (E : generate_word 2 10 (build_model 2 abc_bcd) flat five_draws
              = Return (py "abcd", after 5 five_draws))
    by (vm_compute; reflexivity).
  split; [exact P|]. split; [exact Ep|]. split; [exact E|].
  exact (generated_word_follows_model (F := Binary64) (R := CPython) 2
           (Some two_words) abc_bcd 10 flat five_draws
           (after 5 five_draws) (py "abcd") P Ep E).
Defined.

Lemma terminator_factor_returns {F : FloatOps} (distribution : list number)
  (word : str) :
  distribution <> [] ->
  exists x, terminator_factor distribution word = Return x.
Proof.
  intros Ne. unfold terminator_factor.
  destruct (Nat.ltb_spec (length word) (length distribution)) as [L|G].
  - unfold item. destruct (nth_error distribution (length word)) eqn:N;
      [eauto|]. apply nth_error_None in N. lia.
  - unfold last_item. destruct (rev distribution) eqn:Er; [|eauto].
    apply (f_equal (@rev number)) in Er. rewrite rev_involutive in Er.
    contradiction.
Qed.

Lemma next_weights_returns {F : FloatOps} (CL : Z) (model : model_t)
  (distribution : list number) (word : str) :
  distribution <> [] ->
  In (context_of CL word) (keys model) ->
  exists weights, next_weights CL model distribution word = Return weights.
Proof.
  intros Ne I. unfold next_weights.
  apply (dict_get_In_keys _ str_eqb_eq) in I.
  destruct (dict_get str_eqb (context_of CL word) model) as [r|];
    [|congruence].
  destruct (dict_mem char_eqb TERMINATOR (as_weights r)); [|eauto].
  destruct (terminator_factor_returns distribution word Ne) as [x Ex].
  rewrite Ex. cbn [bind]. eauto.
Qed.

(** An error of the loop is an error of [random.choices]. *)
Definition raised_by_choices {F : FloatOps} {R : Random} (e : exn) : Prop :=
  exists g population weights, choices g population weights = Raise e.

Lemma generate_loop_Raise {F : FloatOps} {R : Random} (CL : Z)
  (wordlist : list str) (fuel : nat) (distribution : list number)
  (word : str) (g : rng) (e : exn) :
  (0 <= CL)%Z -> distribution <> [] -> word <> [] ->
  last_item word = Return TERMINATOR
  \/ In (context_of CL word) (keys (build_model CL wordlist)) ->
  generate_loop CL fuel (build_model CL wordlist) distribution word g
  = Raise e ->
  raised_by_choices e.
Proof.
  intros P Nd. revert word g; induction fuel as [|fuel IH];
    intros word g Nw Inv E; [discriminate|].
  rewrite generate_loop_unfold in E.
  destruct (last_item word) as [final|e'|] eqn:L; cbn [bind] in E.
  - destruct (char_eqb final TERMINATOR) eqn:T; cbn [negb] in E;
      [discriminate|].
    destruct Inv as [Inv|Inv]; [inversion Inv; subst;
      rewrite char_eqb_refl in T; discriminate|].
    destruct (next_weights_returns CL _ distribution word Nd Inv)
      as [weights W].
    rewrite W in E. cbn [bind] in E.
    destruct (choices g (keys weights) (values weights))
      as [[c g1]|e'|] eqn:D; cbn [bind fst snd] in E.
    + apply IH in E; [exact E | destruct word; discriminate |].
      destruct (N.eq_dec c TERMINATOR) as [->|N].
      * left. apply last_item_snoc.
      * right. apply build_model_next; try assumption.
        apply choices_In in D.
        rewrite (next_weights_keys _ _ _ _ W) in D. exact D.
    + inversion E; subst. exists g, (keys weights), (values weights).
      exact D.
    + discriminate.
  - unfold last_item in L. destruct (rev word) eqn:Er; [|discriminate].
    apply (f_equal (@rev char)) in Er. rewrite rev_involutive in Er.
    contradiction.
  - discriminate.
Qed.

(** X9: inside [generate_words], where the model and the distribution come
    from the same word list, every exception that [generate_word] raises
    is one that [random.choices] raised: no context is missing and no
    index of the distribution is out of range. *)
Theorem generate_word_raises_only_from_choices {F : FloatOps} {R : Random}
  (CL : Z) (wordlist : list str) (distribution : list number)
  (fuel : nat) (g : rng) (e : exn) :
  (0 <= CL)%Z ->
  length_distribution wordlist = Return distribution ->
  generate_word CL fuel (build_model CL wordlist) distribution g = Raise e ->
  exists g1 population weights, choices g1 population weights = Raise e.
Proof.
  intros P Ed E.
  assert (Nw : wordlist <> []).
  { intros ->. discriminate. }
  assert (Nd : distribution <> []).
  { rewrite length_distribution_closed_form_aux in Ed.
    destruct wordlist; [congruence|]. inversion Ed. discriminate. }
  unfold generate_word in E.
  apply bind_Raise in E. destruct E as [E|[out [_ E]]]; [|discriminate].
  apply (generate_loop_Raise CL wordlist fuel distribution [INITIATOR] g e
           P Nd) in E; [exact E | discriminate |].
  right. rewrite context_of_initiator by assumption.
  apply build_model_start; assumption.
Qed.

(** An exception that does occur: [random.choices] on weights whose total
    is zero, the lone candidate being a terminator of weight 0. *)
Lemma generate_word_raises_only_from_choices_witness :
  (0 <= 2)%Z
  /\ length_distribution [py "xxxxxcd"]
     = Return [Int 0; Int 0; Int 0; Int 0; Int 0; Int 0; Int 0;
               Float 1%float]
  /\ generate_word 2 10 (build_model 2 [py "xxxxxcd"])
       [Int 0; Int 0; Int 0; Int 0; Int 0; Int 0; Int 0; Float 1%float]
       (constant 0.75)
     = Raise ValueError
  /\ exists g1 population weights,
       choices g1 population weights = Raise ValueError.
Proof.
  assert (P : (0 <= 2)%Z) by discriminate.
  assert (Ed : length_distribution [py "xxxxxcd"]
               = Return [Int 0; Int 0; Int 0; Int 0; Int 0; Int 0; Int 0;
                         Float 1%float])
    by (vm_compute; reflexivity).
  assert (E : generate_word 2 10 (build_model 2 [py "xxxxxcd"])
                [Int 0; Int 0; Int 0; Int 0; Int 0; Int 0; Int 0;
                 Float 1%float] (constant 0.75)
              = Raise ValueError)
    by (vm_compute; reflexivity).
  split; [exact P|]. split; [exact Ed|]. split; [exact E|].
  exact (generate_word_raises_only_from_choices (F := Binary64)
           (R := CPython) 2 [py "xxxxxcd"]
           [Int 0; Int 0; Int 0; Int 0; Int 0; Int 0; Int 0; Float 1%float]
           10 (constant 0.75) ValueError P Ed E).
Defined.

(** ** generate_words *)

(** X10: when the text has no word longer than the context length, so
    that [parse_words] returns the empty list, [generate_words] writes an
    empty table and raises the [ValueError] of [max] on an empty sequence,
    for every count, zero included. *)
Theorem generate_words_without_words {F : FloatOps} {R : Random}
  {U : UnicodeData} {H : HashSeed} (CL : Z) (fuel : nat)
  (text : option str) (count : Z) (g : rng) :
  parse_words CL text = Some [] ->
  generate_words CL fuel text count g
  = {| model_json := Some []; returned := Raise ValueError |}.
Proof. intros E. unfold generate_words. rewrite E. reflexivity. Qed.

Lemma generate_words_without_words_witness :
  parse_words 2 (Some (py "a b 12 -- no!")) = Some []
  /\ generate_words 2 10 (Some (py "a b 12 -- no!")) 0 five_draws
     = {| model_json := Some []; returned := Raise ValueError |}.
Proof.
  assert (E : parse_words 2 (Some (py "a b 12 -- no!")) = Some [])
    by reflexivity.
  split; [exact E|].
  exact (generate_words_without_words (F := Binary64) (R := CPython) 2 10
           (Some (py "a b 12 -- no!")) 0 five_draws E).
Defined.

(** X11: when the text has at least one word longer than the context
    length and the count is zero or negative, [generate_words] returns the
    empty list without drawing anything, whatever the fuel. *)
Theorem generate_words_nothing_asked {F : FloatOps} {R : Random}
  {U : UnicodeData} {H : HashSeed} (CL : Z) (fuel : nat)
  (text : option str) (count : Z) (g : rng) (wordlist : list str) :
  parse_words CL text = Some wordlist ->
  wordlist <> [] ->
  (count <= 0)%Z ->
  returned (generate_words CL fuel text count g) = Return (Some [], g).
Proof.
  intros E Ne Le. unfold generate_words. rewrite E. cbn [returned].
  rewrite length_distribution_closed_form_aux.
  destruct wordlist as [|w wl]; [congruence|]. cbn [bind].
  rewrite sample_loop_zero by assumption. reflexivity.
Qed.

Lemma generate_words_nothing_asked_witness :
  parse_words 2 (Some two_words) = Some abc_bcd
  /\ abc_bcd <> []
  /\ (-3 <= 0)%Z
  /\ returned (generate_words 2 0 (Some two_words) (-3) five_draws)
     = Return (Some [], five_draws).
Proof.
  assert (E : parse_words 2 (Some two_words) = Some abc_bcd)
    by reflexivity.
  split; [exact E|]. split; [discriminate|]. split; [discriminate|].
  apply (generate_words_nothing_asked (F := Binary64) (R := CPython) 2 0
           (Some two_words) (-3) five_draws abc_bcd E);
    discriminate.
Defined.

Lemma generate_word_Raise {F : FloatOps} {R : Random} (CL : Z)
  (wordlist : list str) (distribution : list number) (fuel : nat)
  (g : rng) (e : exn) :
  (0 <= CL)%Z -> wordlist <> [] -> distribution <> [] ->
  generate_word CL fuel (build_model CL wordlist) distribution g = Raise e ->
  raised_by_choices e.
Proof.
  intros P Nw Nd E. unfold generate_word in E.
  apply bind_Raise in E. destruct E as [E|[out [_ E]]]; [|discriminate].
  apply (generate_loop_Raise CL wordlist fuel distribution [INITIATOR] g e
           P Nd) in E; [exact E | discriminate |].
  right. rewrite context_of_initiator by assumption.
  apply build_model_start; assumption.
Qed.

Lemma sample_loop_Raise {F : FloatOps} {R : Random} (CL : Z) (fuel : nat)
  (model : model_t) (distribution : list number) (wordlist : list str)
  (count : Z) (generated : list str) (g : rng) (e : exn) :
  sample_loop CL fuel model distribution wordlist count generated g
  = Raise e ->
  exists fuel' g1, generate_word CL fuel' model distribution g1 = Raise e.
Proof.
  revert generated g; induction fuel as [|fuel IH]; intros generated g E;
    rewrite sample_loop_unfold in E;
    destruct (Z.of_nat (length generated) <? count)%Z; try discriminate.
  destruct (generate_word CL (S fuel) model distribution g)
    as [[word g1]|e'|] eqn:Eg; cbn [bind fst snd] in E.
  - destruct (str_in word wordlist || str_in word generated);
      eapply IH; exact E.
  - inversion E; subst. eauto.
  - discriminate.
Qed.

(** X12: on a text, [generate_words] never returns [None], and it raises
    in two cases only: the [ValueError] of an empty word list, and an
    exception that [random.choices] raised. *)
Theorem generate_words_failures {F : FloatOps} {R : Random}
  {U : UnicodeData} {H : HashSeed} (CL : Z) (fuel : nat) (text : str)
  (count : Z) (g : rng) :
  (0 <= CL)%Z ->
  (forall g', returned (generate_words CL fuel (Some text) count g)
              <> Return (None, g'))
  /\ (forall e,
        returned (generate_words CL fuel (Some text) count g) = Raise e ->
        (parse_words CL (Some text) = Some [] /\ e = ValueError)
        \/ exists g1 population weights,
             choices g1 population weights = Raise e).
Proof.
  intros P. unfold generate_words.
  destruct (parse_words CL (Some text)) as [wordlist|] eqn:Ep;
    [|discriminate]. cbn [returned]. split.
  - intros g' E. apply bind_Return in E. destruct E as [d [_ E]].
    apply bind_Return in E. destruct E as [out [_ E]]. discriminate.
  - intros e E. rewrite length_distribution_closed_form_aux in E.
    destruct wordlist as [|w wl].
    + left. inversion E. auto.
    + right. cbn [bind] in E.
      apply bind_Raise in E. destruct E as [E|[out [_ E]]]; [|discriminate].
      apply sample_loop_Raise in E. destruct E as [fuel' [g1 E]].
      apply (generate_word_Raise CL (w :: wl) _ fuel' g1 e P) in E;
        [exact E | discriminate | discriminate].
Qed.

Lemma generate_words_failures_witness :
  (0 <= 2)%Z
  /\ (forall g', returned (generate_words 2 10 (Some two_words) 1
                             five_draws)
                 <> Return (None, g'))
  /\ (forall e,
        returned (generate_words 2 10 (Some two_words) 1 five_draws)
        = Raise e ->
        (parse_words 2 (Some two_words) = Some [] /\ e = ValueError)
        \/ exists g1 population weights,
             choices g1 population weights = Raise e).
Proof.
  split; [discriminate|].
  apply (generate_words_failures (F := Binary64) (R := CPython) 2 10
           two_words 1 five_draws).
  discriminate.
Defined.

(** *** Context length zero *)

(** A proper prefix of a word of the list bounded by the sentinels. *)
Definition memorised (wordlist : list str) (word : str) : Prop :=
  exists w i, In w wordlist /\ 1 <= i < length (bounded w)
              /\ word = slice_to i (bounded w).

Lemma generate_loop_memorised {F : FloatOps} {R : Random}
  (wordlist : list str) (fuel : nat) (distribution : list number)
  (word : str) (g : rng) (word' : str) (g' : rng) :
  vocabulary wordlist ->
  generate_loop 0 fuel (build_model 0 wordlist) distribution word g
  = Return (word', g') ->
  memorised wordlist word ->
  exists w, In w wordlist /\ word' = bounded w.
Proof.
  intros V. revert word g; induction fuel as [|fuel IH]; intros word g E M;
    [discriminate|].
  rewrite generate_loop_unfold in E.
  apply bind_Return in E. destruct E as [final [L E]].
  destruct (char_eqb final TERMINATOR) eqn:T; cbn [negb] in E.
  { exfalso. apply char_eqb_eq in T. subst final.
    destruct M as [w [i [Iw [B ->]]]].
    apply (last_item_Return _ 0%N) in L. destruct L as [_ L].
    unfold slice_to in L. rewrite length_firstn in L.
    rewrite Nat.min_l in L by lia.
    rewrite nth_firstn in L.
    destruct (Nat.ltb_spec (i - 1) i) as [_|]; [|lia].
    destruct (V w Iw) as [_ Pw]. rewrite Forall_forall in Pw.
    rewrite length_bounded in B. unfold bounded in L.
    destruct (i - 1) as [|k] eqn:Ek; [discriminate|].
    simpl in L. rewrite app_nth1 in L by lia.
    assert (Ik : In (nth k w 0%N) w) by (apply nth_In; lia).
    destruct (Pw _ Ik) as [_ NT]. congruence. }
  apply bind_Return in E. destruct E as [weights [W E]].
  apply bind_Return in E. destruct E as [[c g1] [D E]].
  cbn [fst snd] in E. apply choices_In in D.
  rewrite (next_weights_keys _ _ _ _ W) in D.
  apply build_model_row_keys, in_all_transitions in D.
  destruct D as [w [i [Iw [B [Ec En]]]]].
  rewrite !context_of_zero in Ec.
  assert (Es : word ++ [c] = slice_to (S i) (bounded w)).
  { unfold slice_to in *. rewrite (firstn_succ_nth (bounded w) 0%N) by lia.
    rewrite <- Ec, <- En. reflexivity. }
  destruct (nth_bounded B) as [[Li _]|[Ei Et]].
  - apply IH in E; [exact E|]. exists w, (S i).
    rewrite length_bounded. repeat split; try assumption; lia.
  - assert (Ct : c = TERMINATOR) by congruence.
    clear En Et. subst c.
    destruct fuel as [|fuel]; [discriminate|].
    rewrite generate_loop_unfold, last_item_snoc in E.
    cbn [bind] in E. rewrite char_eqb_refl in E. cbn [negb] in E.
    inversion E; subst word'. exists w. split; [exact Iw|].
    rewrite Es. unfold slice_to. apply firstn_all2.
    rewrite length_bounded. lia.
Qed.

(** With context length 0 the slice [word[-0:]] is the whole word: the
    model memorises the words and [generate_word] can only return one of
    them. *)
Lemma generate_word_memorised {F : FloatOps} {R : Random}
  (wordlist : list str) (fuel : nat) (distribution : list number)
  (g : rng) (word : str) (g' : rng) :
  vocabulary wordlist ->
  generate_word 0 fuel (build_model 0 wordlist) distribution g
  = Return (word, g') ->
  In word wordlist.
Proof.
  intros V E. unfold generate_word in E.
  apply bind_Return in E. destruct E as [[raw g1] [E Eq]].
  cbn [fst snd] in Eq. injection Eq as Ew Eg.
  destruct wordlist as [|w0 wl].
  { destruct fuel; [discriminate|]. rewrite generate_loop_unfold in E.
    discriminate. }
  apply (generate_loop_memorised (w0 :: wl) fuel distribution [INITIATOR]
           g raw g1 V) in E.
  - destruct E as [w [Iw ->]]. destruct (V w Iw) as [Ne Pw].
    unfold bounded in Ew. rewrite strip_bounded in Ew by assumption.
    subst word. exact Iw.
  - exists w0, 1. rewrite length_bounded.
    repeat split; [left; reflexivity | lia | lia].
Qed.

Lemma sample_loop_rejects {F : FloatOps} {R : Random} (CL : Z) (fuel : nat)
  (model : model_t) (distribution : list number) (wordlist : list str)
  (count : Z) (g : rng) (out : list str * rng) :
  (forall fuel' g1 word g2,
      generate_word CL fuel' model distribution g1 = Return (word, g2) ->
      In word wordlist) ->
  (0 < count)%Z ->
  sample_loop CL fuel model distribution wordlist count [] g <> Return out.
Proof.
  intros Rej Pc. revert g; induction fuel as [|fuel IH]; intros g E;
    rewrite sample_loop_unfold in E;
    change (Z.of_nat (length (@nil str))) with 0%Z in E;
    destruct (Z.ltb_spec 0 count) as [_|]; try lia; try discriminate.
  destruct (generate_word CL (S fuel) model distribution g)
    as [[word g1]|e|] eqn:Eg; cbn [bind fst snd] in E; try discriminate.
  apply Rej in Eg. apply str_in_In in Eg. rewrite Eg in E.
  cbn [orb] in E. exact (IH g1 E).
Qed.

(** X13: with context length 0 and a count of at least 1,
    [generate_words] never returns: every word that [generate_word]
    produces is a word of the list and is discarded, so the call either
    raises or goes on for ever. *)
Theorem generate_words_context_zero {F : FloatOps} {R : Random}
  {U : UnicodeData} {H : HashSeed} (fuel : nat) (text : str) (count : Z)
  (g : rng) (out : option (list str) * rng) :
  (0 < count)%Z ->
  returned (generate_words 0 fuel (Some text) count g) <> Return out.
Proof.
  intros Pc E. unfold generate_words in E.
  destruct (parse_words 0 (Some text)) as [wordlist|] eqn:Ep;
    [|discriminate]. cbn [returned] in E.
  apply bind_Return in E. destruct E as [distribution [_ E]].
  apply bind_Return in E. destruct E as [res [E _]].
  revert E. apply sample_loop_rejects; [|exact Pc].
  intros fuel' g1 word g2 Eg.
  apply (generate_word_memorised wordlist fuel' distribution g1 word g2);
    [|exact Eg].
  apply (parse_words_vocabulary (CL := 0) (Some text)); [lia | exact Ep].
Qed.

Lemma generate_words_context_zero_witness :
  (0 < 1)%Z
  /\ returned (generate_words 0 20 (Some two_words) 1 five_draws)
     = OutOfFuel
  /\ returned (generate_words 0 20 (Some two_words) 1 five_draws)
     <> Return (Some [py "abcd"], after 5 five_draws).
Proof.
  split; [reflexivity|]. split; [vm_compute; reflexivity|].
  apply (generate_words_context_zero (F := Binary64) (R := CPython) 20
           two_words 1 five_draws).
  reflexivity.
Defined.

(** ** parse_words *)

(** X14: the words that [parse_words] returns do not depend on the order
    in which the sets are enumerated: under two hash seeds the two lists
    hold the same words, each once, possibly in another order. *)
Theorem parse_words_same_words {U : UnicodeData} (H1 H2 : HashSeed)
  (CL : Z) (text : option str) (l1 l2 : list str) :
  parse_words (H := H1) CL text = Some l1 ->
  parse_words (H := H2) CL text = Some l2 ->
  Permutation l1 l2.
Proof. apply parse_words_Permutation. Qed.

Lemma parse_words_same_words_witness :
  parse_words (H := FirstSeen) 2 (Some two_words)
  = Some [py "abc"; py "bcd"]
  /\ parse_words (H := LargestFirst) 2 (Some two_words)
     = Some [py "bcd"; py "abc"]
  /\ Permutation [py "abc"; py "bcd"] [py "bcd"; py "abc"].
Proof.
  split; [reflexivity|]. split; [reflexivity|].
  apply (parse_words_same_words FirstSeen LargestFirst 2 (Some two_words));
    reflexivity.
Defined.

(** No hyphen next to a hyphen. *)
Fixpoint no_double (s : str) : Prop :=
  match s with
  | [] => True
  | c :: t =>
      match t with
      | [] => True
      | d :: _ => c = HYPHEN -> d <> HYPHEN
      end /\ no_double t
  end.

Lemma no_double_app (a b : str) :
  no_double (a ++ b) -> no_double a /\ no_double b.
Proof.
  induction a as [|c a IH]; simpl; [tauto|].
  intros [Hd Tl]. destruct (IH Tl) as [Na Nb].
  split; [|exact Nb]. split; [|exact Na].
  destruct a as [|d a]; [exact I | exact Hd].
Qed.

Lemma no_double_spec (s a b : str) :
  no_double s -> s <> a ++ HYPHEN :: HYPHEN :: b.
Proof.
  intros N E. subst s. apply no_double_app in N. destruct N as [_ N].
  simpl in N. destruct N as [N _]. exact (N eq_refl eq_refl).
Qed.

Lemma no_double_cons (c : str) (x : char) (s : str) :
  (c = [] \/ c = [HYPHEN] \/ c = [SPACE]) ->
  x <> HYPHEN -> no_double s -> no_double (c ++ x :: s).
Proof.
  intros Hc Nx Ns.
  assert (Nxs : no_double (x :: s)).
  { simpl. split; [|exact Ns]. destruct s; [exact I|]. intros E.
    contradiction. }
  destruct Hc as [-> | [-> | ->]]; [exact Nxs | |];
    (split; [intros _; exact Nx | exact Nxs]).
Qed.

Lemma hyphen_run_cases (n : nat) :
  hyphen_run n = [] \/ hyphen_run n = [HYPHEN] \/ hyphen_run n = [SPACE].
Proof. destruct n as [|[|n]]; simpl; auto. Qed.

(** After [re.sub(r'-{2,}', ' ', text)] no two hyphens are adjacent. *)
Lemma sub_hyphens_no_double (s : str) (run : nat) :
  no_double (sub_hyphens run s).
Proof.
  revert run; induction s as [|c s IH]; intros run; simpl.
  - destruct run as [|[|run]]; simpl; tauto.
  - destruct (char_eqb c HYPHEN) eqn:E; [apply IH|].
    apply no_double_cons; [apply hyphen_run_cases | | apply IH].
    intros ->. rewrite char_eqb_refl in E. discriminate.
Qed.

Lemma map_no_double (f : char -> char) (s : str) :
  (forall c, f c = HYPHEN -> c = HYPHEN) ->
  no_double s -> no_double (map f s).
Proof.
  intros Hf. induction s as [|c s IH]; simpl; [tauto|].
  intros [Hd Tl]. split; [|exact (IH Tl)].
  destruct s as [|d s]; simpl; [exact I|].
  intros Ec Ed. apply Hf in Ec, Ed. exact (Hd Ec Ed).
Qed.

Lemma split_from_no_double (s cur tok : str) :
  no_double (rev cur ++ s) ->
  In tok (split_from cur s) -> no_double tok.
Proof.
  revert cur; induction s as [|c s IH]; intros cur N; simpl.
  - rewrite app_nil_r in N.
    destruct cur; simpl; [tauto|]. intros [<-|[]]. exact N.
  - destruct (isspace c).
    + pose proof (no_double_app _ _ N) as [Nc Ns].
      assert (Nx : In tok (split_from [] s) -> no_double tok).
      { apply IH. simpl. simpl in Ns. tauto. }
      destruct cur; simpl; [exact Nx|].
      intros [<-|I]; [exact Nc | auto].
    + apply IH. simpl. rewrite <- app_assoc. exact N.
Qed.

Lemma lstrip_suffix (chars s : str) : exists a, s = a ++ lstrip chars s.
Proof.
  induction s as [|c s [a IH]]; simpl; [exists []; reflexivity|].
  destruct (char_in c chars).
  - exists (c :: a). simpl. f_equal. exact IH.
  - exists []. reflexivity.
Qed.

Lemma rstrip_prefix (chars s : str) : exists b, s = rstrip chars s ++ b.
Proof.
  unfold rstrip. destruct (lstrip_suffix chars (rev s)) as [a E].
  exists (rev a). rewrite <- rev_app_distr, <- E, rev_involutive.
  reflexivity.
Qed.

(** [s.strip(chars)] is a piece of [s]. *)
Lemma strip_infix (chars s : str) :
  exists a b, s = a ++ strip chars s ++ b.
Proof.
  unfold strip. destruct (lstrip_suffix chars s) as [a Ea].
  destruct (rstrip_prefix chars (lstrip chars s)) as [b Eb].
  exists a, b. rewrite <- Eb. exact Ea.
Qed.

Lemma lstrip_head (chars s : str) (c : char) (r : str) :
  lstrip chars s = c :: r -> char_in c chars = false.
Proof.
  induction s as [|x s IH]; simpl; [discriminate|].
  destruct (char_in x chars) eqn:E; [exact IH|].
  intros Eq; inversion Eq; subst. exact E.
Qed.

Lemma lstrip_snoc_stop (chars a : str) (c : char) :
  char_in c chars = false ->
  lstrip chars (a ++ [c]) = lstrip chars a ++ [c].
Proof.
  intros E. induction a as [|x a IH]; simpl; [rewrite E; reflexivity|].
  destruct (char_in x chars); [exact IH | reflexivity].
Qed.

(** What [s.strip(chars)] starts and ends with is not among [chars]. *)
Lemma strip_ends (chars s : str) (c : char) (r : str) :
  (strip chars s = c :: r -> char_in c chars = false)
  /\ (strip chars s = r ++ [c] -> char_in c chars = false).
Proof.
  unfold strip, rstrip. split.
  - destruct (lstrip chars s) as [|x t] eqn:El; [discriminate|].
    pose proof (lstrip_head chars s x t El) as Ex.
    simpl rev. rewrite lstrip_snoc_stop by exact Ex.
    rewrite rev_app_distr. simpl. intros Eq; inversion Eq; subst. exact Ex.
  - intros Eq. apply (f_equal (@rev char)) in Eq.
    rewrite rev_involutive, rev_app_distr in Eq. simpl in Eq.
    exact (lstrip_head _ _ _ _ Eq).
Qed.

(** X15: no word that [parse_words] returns begins or ends with a hyphen,
    and none contains two hyphens in a row: runs of hyphens are cut out of
    the text before it is split, and [strip('-')] trims each token. *)
Theorem parse_words_hyphens {U : UnicodeData} {H : HashSeed} (CL : Z)
  (text : option str) (wordlist : list str) :
  parse_words CL text = Some wordlist ->
  forall w, In w wordlist ->
    (forall r, w <> HYPHEN :: r)
    /\ (forall r, w <> r ++ [HYPHEN])
    /\ (forall a b, w <> a ++ HYPHEN :: HYPHEN :: b).
Proof.
  intros E w I. destruct text as [text|]; [|discriminate].
  unfold parse_words in E. inversion E; subst wordlist; clear E.
  apply (proj1 (list_set_In _ _)), In_keep_long in I.
  destruct I as [w0 [I [-> _]]].
  apply (proj1 (list_set_In _ _)) in I.
  split; [|split].
  - intros r Eq. apply (proj1 (strip_ends [HYPHEN] w0 HYPHEN r)) in Eq.
    discriminate.
  - intros r Eq. apply (proj2 (strip_ends [HYPHEN] w0 HYPHEN r)) in Eq.
    discriminate.
  - intros a b. apply no_double_spec.
    destruct (strip_infix [HYPHEN] w0) as [x [y Ex]].
    assert (N0 : no_double w0).
    { unfold split in I. refine (split_from_no_double _ [] w0 _ I). simpl.
      apply map_no_double; [|apply sub_hyphens_no_double].
      intros c. destruct (desired c); [auto | discriminate]. }
    rewrite Ex in N0. apply no_double_app in N0. destruct N0 as [_ N0].
    apply no_double_app in N0. tauto.
Qed.

Lemma parse_words_hyphens_witness :
  parse_words 2 (Some (py "-well-known- --- so--called -x-"))
  = Some [py "well-known"; py "called"]
  /\ forall w, In w [py "well-known"; py "called"] ->
       (forall r, w <> HYPHEN :: r)
       /\ (forall r, w <> r ++ [HYPHEN])
       /\ (forall a b, w <> a ++ HYPHEN :: HYPHEN :: b).
Proof.
  assert (E : parse_words 2 (Some (py "-well-known- --- so--called -x-"))
              = Some [py "well-known"; py "called"])
    by reflexivity.
  split; [exact E|].
  exact (parse_words_hyphens 2
           (Some (py "-well-known- --- so--called -x-"))
           [py "well-known"; py "called"] E).
Defined.

(** ** build_model and the words it was built from *)

(** X16: replaying a word of the list against the model never misses:
    at every position after the initiator of the bounded word, the context
    is a key of the model and the character at that position is a key of
    its row, with a count of at least 1.  This holds for every context
    length, negative ones included. *)
Theorem build_model_replays_words (CL : Z) (wordlist : list str) (w : str)
  (i : nat) :
  In w wordlist ->
  1 <= i < length (bounded w) ->
  exists r,
    dict_get str_eqb (context_of CL (slice_to i (bounded w)))
      (build_model CL wordlist) = Some r
    /\ In (nth i (bounded w) 0%N) (keys r)
    /\ (1 <= get_count (nth i (bounded w) 0%N) r)%Z.
Proof.
  intros Iw B.
  assert (T : In (context_of CL (slice_to i (bounded w)),
                  nth i (bounded w) 0%N) (all_transitions CL wordlist)).
  { apply in_all_transitions. exists w, i. auto. }
  pose proof (proj2 (build_model_row_keys CL wordlist _ _) T) as K.
  pose proof (build_model_count CL wordlist
                (context_of CL (slice_to i (bounded w)))
                (nth i (bounded w) 0%N)) as C.
  apply (count_occ_In transition_eq_dec) in T.
  unfold get_row in *.
  destruct (dict_get str_eqb (context_of CL (slice_to i (bounded w)))
              (build_model CL wordlist)) as [r|]; [|destruct K].
  exists r. repeat split; [exact K | lia].
Qed.

Lemma build_model_replays_words_witness :
  In (py "bcd") abc_bcd
  /\ 1 <= 4 < length (bounded (py "bcd"))
  /\ exists r,
       dict_get str_eqb (context_of 2 (slice_to 4 (bounded (py "bcd"))))
         (build_model 2 abc_bcd) = Some r
       /\ In (nth 4 (bounded (py "bcd")) 0%N) (keys r)
       /\ (1 <= get_count (nth 4 (bounded (py "bcd")) 0%N) r)%Z.
Proof.
  assert (Iw : In (py "bcd") abc_bcd) by (right; left; reflexivity).
  assert (B : 1 <= 4 < length (bounded (py "bcd"))) by (simpl; lia).
  split; [exact Iw|]. split; [exact B|].
  exact (build_model_replays_words 2 abc_bcd (py "bcd") 4 Iw B).
Defined.
